(** * Choir stage layout: roster, row distribution, balancing and swap

    A shallow embedding of [src/App.tsx].  The component keeps four pieces
    of state (placement policy, the four count texts, the row count and the
    grid) and has two operations on the grid: [generateMembers], which
    rebuilds it from the configuration, and [moveMember], which exchanges
    two slots.

    Conventions of the embedding.
    - A JavaScript array is a [list]; [a[i]] is stdpp's lookup, with
      [undefined] where the index is past the end; [a[i] = v] is
      [array_set], which extends the array as JavaScript does.
    - Row and slot indices and array lengths are natural numbers.  The
      engine's limit on array lengths and memory exhaustion are outside the
      model.
    - Calling a method on [undefined] raises [TypeError]; operations that
      can do so return a [result].
    - A string is a sequence of code units below 256.
    - [uuidv4] is an oracle: the k-th call of one build returns
      [uuidv4 k].  Nothing is assumed about it. *)

From Stdlib Require Import Ascii.
From stdpp Require Import base decidable numbers option list sets strings pretty.

Open Scope Z_scope.
Open Scope nat_scope.

(** ** The fragment of JavaScript the component relies on *)

Module JS.

(** The exception the component's own code can raise.  The engine also
    raises [RangeError] when an array is asked to be longer than 2^32 - 1
    or a call is given more arguments than the engine's stack holds (the
    spread on line 159, with some hundred thousand rows); like memory
    exhaustion these limits of the engine are outside the model, and every
    statement below about a build is a statement within them. *)
Inductive Error : Set := TypeError.

Inductive result (A : Type) : Type :=
| Ok (a : A)
| Throw (e : Error).
Arguments Ok {A} a.
Arguments Throw {A} e.

(** Sequencing: an exception ends the computation. *)
#[global] Instance result_ret : MRet result := λ A a, Ok a.
#[global] Instance result_bind : MBind result := λ A B k r,
  match r with
  | Ok a => k a
  | Throw e => Throw e
  end.

Definition succeeds {A} (r : result A) : Prop := ∃ a, r = Ok a.

(** Numbers, as far as [parseInt] and array lengths need them: an
    integer or NaN. *)
Inductive Number : Set :=
| NaN
| Int (z : Z).

(** [x || d] on numbers: NaN and 0 are falsy. *)
Definition or_default (x : Number) (d : Z) : Z :=
  match x with
  | NaN => d
  | Int 0 => d
  | Int z => z
  end.

(** White space that [parseInt] skips, among the code units below 256. *)
Definition is_white_space (c : ascii) : bool :=
  let n := nat_of_ascii c in
  bool_decide (n = 9 ∨ n = 10 ∨ n = 11 ∨ n = 12 ∨ n = 13 ∨ n = 32 ∨ n = 160).

Fixpoint trim_start (s : string) : string :=
  match s with
  | String c s' => if is_white_space c then trim_start s' else s
  | EmptyString => EmptyString
  end.

(** Value of a character read as a digit in base 36. *)
Definition digit_value (c : ascii) : option N :=
  let n := N_of_ascii c in
  if bool_decide (48 ≤ n ≤ 57)%N then Some (n - 48)%N
  else if bool_decide (97 ≤ n ≤ 122)%N then Some (n - 87)%N
  else if bool_decide (65 ≤ n ≤ 90)%N then Some (n - 55)%N
  else None.

(** The longest prefix of radix-[radix] digits, as a number; [acc] is
    [None] until a digit has been read. *)
Fixpoint read_digits (radix : N) (s : string) (acc : option N) : option N :=
  match s with
  | String c s' =>
      match digit_value c with
      | Some d =>
          if bool_decide (d < radix)%N
          then read_digits radix s' (Some (default 0%N acc * radix + d)%N)
          else acc
      | None => acc
      end
  | EmptyString => acc
  end.

(** [parseInt(s)] with no radix argument. *)
Definition parseInt (s : string) : Number :=
  let s := trim_start s in
  let '(sign, s) :=
    match s with
    | String "-" r => ((-1)%Z, r)
    | String "+" r => (1%Z, r)
    | _ => (1%Z, s)
    end in
  let '(radix, s) :=
    match s with
    | String "0" (String "x" r) => (16%N, r)
    | String "0" (String "X" r) => (16%N, r)
    | _ => (10%N, s)
    end in
  match read_digits radix s None with
  | None => NaN
  | Some n => Int (sign * Z.of_N n)
  end.

(** The length [Array.from({length: n}, ...)] uses: negative lengths
    count as 0. *)
Definition ToLength (n : Z) : nat := Z.to_nat n.

(** [Array.from({length: n}, (_, i) => f i)]. *)
Definition Array_from {A} (n : nat) (f : nat → A) : list A := f <$> seq 0 n.

(** The value a number takes once it is stored or shown: a double that
    is an integer, an infinity or NaN.  [parseInt] above yields the integer
    it reads; [to_double] rounds it to the nearest double, ties to the even
    mantissa, as reading a numeral and adding two numbers do. *)
Inductive Double : Set :=
| Finite (z : Z)
| PlusInfinity
| MinusInfinity
| NotANumber.

Definition to_double (z : Z) : Double :=
  if (Z.abs z <=? 9007199254740992)%Z then Finite z
  else
    let e := (Z.log2 (Z.abs z) - 52)%Z in
    let q := (Z.abs z / 2 ^ e)%Z in
    let r := (Z.abs z mod 2 ^ e)%Z in
    let half := (2 ^ (e - 1))%Z in
    let q' := if (r <? half)%Z then q
              else if (half <? r)%Z then (q + 1)%Z
              else if Z.even q then q else (q + 1)%Z in
    let m := (q' * 2 ^ e)%Z in
    if (2 ^ 1024 <=? m)%Z
    then (if (z <? 0)%Z then MinusInfinity else PlusInfinity)
    else Finite (Z.sgn z * m).

(** [a + b] on such numbers. *)
Definition double_add (a b : Double) : Double :=
  match a, b with
  | Finite x, Finite y => to_double (x + y)
  | NotANumber, _ | _, NotANumber => NotANumber
  | PlusInfinity, MinusInfinity | MinusInfinity, PlusInfinity => NotANumber
  | PlusInfinity, _ | _, PlusInfinity => PlusInfinity
  | MinusInfinity, _ | _, MinusInfinity => MinusInfinity
  end.

(** [parseInt(s) || d] as the number it is at run time. *)
Definition parseInt_or (s : string) (d : Z) : Double :=
  match parseInt s with
  | NaN => Finite d
  | Int 0 => Finite d
  | Int z => to_double z
  end.

(** [Math.max(1, x)]. *)
Definition Math_max_1 (x : Double) : Double :=
  match x with
  | Finite z => Finite (Z.max 1 z)
  | PlusInfinity => PlusInfinity
  | MinusInfinity => Finite 1
  | NotANumber => NotANumber
  end.

(** A number used as the length of an array.  The row count is used for
    nothing else, and there every number from 2^53 - 1 on, infinity
    included, counts the same; infinity is kept as 2^1024, the least
    integer that rounds to it. *)
Definition as_length (x : Double) : nat :=
  match x with
  | Finite z => Z.to_nat z
  | PlusInfinity => Z.to_nat (2 ^ 1024)
  | MinusInfinity | NotANumber => 0
  end.

End JS.

Import JS.

(** ** Data model *)

Inductive Part : Set := Soprano | Alto | Tenor | Bass.

#[global] Instance Part_eq_dec : EqDecision Part.
Proof. solve_decision. Defined.

Definition parts : list Part := [Soprano; Alto; Tenor; Bass].

Record Member : Set := mkMember {
  id : string;
  name : string;
  part : Part;
}.

#[global] Instance Member_eq_dec : EqDecision Member.
Proof. solve_decision. Defined.

(** A slot of the grid is typed [Member | null]; [Undefined] is what a
    read past the end of a row yields (and what fills the gap when a write
    past the end extends a row). *)
Inductive Slot : Set :=
| Occupied (m : Member)
| Null
| Undefined.

#[global] Instance Slot_eq_dec : EqDecision Slot.
Proof. solve_decision. Defined.

Abbreviation Grid := (list (list Slot)).

Inductive LayoutMode : Set := auto | condition1 | condition2.

Record AppState : Set := mkState {
  layoutMode : LayoutMode;
  counts : Part → string;
  rowCount : nat;
  rows : Grid;
}.

Definition initial_counts (p : Part) : string :=
  match p with
  | Soprano => "9"
  | Alto => "10"
  | Tenor => "5"
  | Bass => "5"
  end.

Definition initial_state : AppState :=
  {| layoutMode := auto; counts := initial_counts; rowCount := 3; rows := [] |}.

(** ** Host operations on arrays of slots *)

(** [a[i]]: [undefined] past the end. *)
Definition array_get (a : list Slot) (i : nat) : Slot := default Undefined (a !! i).

(** [a[i] = v]: in range it overwrites; past the end the array grows to
    length [i + 1] and the gap reads as [undefined]. *)
Definition array_set (a : list Slot) (i : nat) (v : Slot) : list Slot :=
  if decide (i < length a) then <[i:=v]> a
  else a ++ replicate (i - length a) Undefined ++ [v].

(** [newRows[row].push(m)], where [row] may itself be [undefined]: a
    missing row makes the call a [TypeError]. *)
Definition push_row (newRows : Grid) (row : option nat) (m : Member) : result Grid :=
  match row with
  | Some row =>
      match newRows !! row with
      | Some r => Ok (<[row := r ++ [Occupied m]]> newRows)
      | None => Throw TypeError
      end
  | None => Throw TypeError
  end.

(** [newRows[row][index] = v] for a row that must exist. *)
Definition write_slot (newRows : Grid) (row index : nat) (v : Slot) : result Grid :=
  match newRows !! row with
  | Some r => Ok (<[row := array_set r index v]> newRows)
  | None => Throw TypeError
  end.

(** [newRows[row][index]] read: a missing row is a [TypeError]. *)
Definition read_slot (newRows : Grid) (row index : nat) : result Slot :=
  match newRows !! row with
  | Some r => Ok (array_get r index)
  | None => Throw TypeError
  end.

(** ** The component *)

Section App.

(** The identifier source; see the conventions above. *)
Variable uuidv4 : nat → string.

(** *** Roster (lines 114-133) *)

(** One category: [Array.from({ length: parseInt(count) || 0 }, ...)].
    [calls] is the number of identifiers drawn before this category. *)
Definition category (initial : string) (p : Part) (count : string) (calls : nat)
  : list Member :=
  Array_from (ToLength (or_default (parseInt count) 0))
    (λ i, {| id := uuidv4 (calls + i); name := initial +:+ pretty i; part := p |}).

Record Roster : Set := mkRoster {
  soprano : list Member;
  alto : list Member;
  tenor : list Member;
  bass : list Member;
}.

Definition roster (counts : Part → string) : Roster :=
  let soprano := category "S" Soprano (counts Soprano) 0 in
  let alto := category "A" Alto (counts Alto) (length soprano) in
  let tenor := category "T" Tenor (counts Tenor) (length soprano + length alto) in
  let bass := category "B" Bass (counts Bass)
                (length soprano + length alto + length tenor) in
  {| soprano := soprano; alto := alto; tenor := tenor; bass := bass |}.

Definition all_members (r : Roster) : list Member :=
  soprano r ++ alto r ++ tenor r ++ bass r.

(** *** Distribution (lines 135-157) *)

(** The loop of [flatInsert] from counter value [i].  With no target row
    [i % 0] is NaN in the source and [i] here; either way the lookup in
    the empty [targetRows] finds nothing. *)
Fixpoint flatInsert_from (i : nat) (members : list Member) (targetRows : list nat)
    (newRows : Grid) : result Grid :=
  match members with
  | [] => Ok newRows
  | m :: members =>
      let row := targetRows !! (i mod length targetRows) in
      newRows ← push_row newRows row m;
      flatInsert_from (S i) members targetRows newRows
  end.

Definition flatInsert (members : list Member) (targetRows : list nat)
    (newRows : Grid) : result Grid :=
  flatInsert_from 0 members targetRows newRows.

Definition distribute (layoutMode : LayoutMode) (rowCount : nat) (r : Roster)
  : result Grid :=
  let newRows : Grid := Array_from rowCount (λ _, []) in
  match layoutMode with
  | condition1 =>
      newRows ← flatInsert (soprano r ++ alto r) [0; 1] newRows;
      flatInsert (tenor r ++ bass r) [2] newRows
  | condition2 =>
      newRows ← flatInsert (soprano r ++ alto r) [0; 1; 2] newRows;
      flatInsert (tenor r ++ bass r) [3] newRows
  | auto =>
      flatInsert (soprano r ++ alto r ++ tenor r ++ bass r)
        (Array_from rowCount (λ i, i)) newRows
  end.

(** *** Balancing (lines 159-170) *)

(** [Math.max(...newRows.map((r) => r.length))].  With no row at all the
    source gets -Infinity, which is then never used because the map over
    the rows is empty; the model has 0 there. *)
Definition maxLength (newRows : Grid) : nat := max_list (length <$> newRows).

Definition balance_row (maxLength : nat) (row : list Slot) : list Slot :=
  let trimmed := take maxLength row in
  let diff := maxLength - length trimmed in
  let padLeft := diff / 2 in
  let padRight := diff - padLeft in
  Array_from padLeft (λ _, Null) ++ trimmed ++ Array_from padRight (λ _, Null).

Definition balancedRows (newRows : Grid) : Grid :=
  balance_row (maxLength newRows) <$> newRows.

(** *** The two operations on the grid *)

Definition setRows (g : Grid) (st : AppState) : AppState :=
  {| layoutMode := layoutMode st; counts := counts st;
     rowCount := rowCount st; rows := g |}.

(** The grid [generateMembers] hands to [setRows]. *)
Definition generate (layoutMode : LayoutMode) (counts : Part → string)
    (rowCount : nat) : result Grid :=
  newRows ← distribute layoutMode rowCount (roster counts);
  mret (balancedRows newRows).

Definition generateMembers (st : AppState) : result AppState :=
  g ← generate (layoutMode st) (counts st) (rowCount st);
  mret (setRows g st).

(** The updater [moveMember] passes to [setRows] (lines 176-183).  It
    works on [prev.map((row) => [...row])], a fresh copy of every row, so
    no two rows share an array and [prev] itself is never written; both
    slots are read before either is written. *)
Definition exchange (fromRow fromIndex toRow toIndex : nat) (prev : Grid)
  : result Grid :=
  let newRows := (λ row : list Slot, row) <$> prev in
  fromMember ← read_slot newRows fromRow fromIndex;
  toMember ← read_slot newRows toRow toIndex;
  newRows ← write_slot newRows fromRow fromIndex toMember;
  newRows ← write_slot newRows toRow toIndex fromMember;
  mret newRows.

Definition moveMember (fromRow fromIndex toRow toIndex : nat) (st : AppState)
  : result AppState :=
  g ← exchange fromRow fromIndex toRow toIndex (rows st);
  mret (setRows g st).

(** *** Configuration inputs (lines 200, 221, 227) *)

Definition setCounts (p : Part) (value : string) (st : AppState) : AppState :=
  {| layoutMode := layoutMode st;
     counts := λ q, if decide (q = p) then value else counts st q;
     rowCount := rowCount st; rows := rows st |}.

(** [setRowCount(Math.max(1, parseInt(e.target.value) || 1))]: the state
    holds the double, so a numeral beyond 2^53 is stored rounded. *)
Definition setRowCount (value : string) (st : AppState) : AppState :=
  {| layoutMode := layoutMode st; counts := counts st;
     rowCount := as_length (Math_max_1 (parseInt_or value 1));
     rows := rows st |}.

Definition setLayoutMode (mode : LayoutMode) (st : AppState) : AppState :=
  {| layoutMode := mode; counts := counts st;
     rowCount := rowCount st; rows := rows st |}.

End App.

(** ** The rest of the component: rendering and events *)

(** [partColors] (lines 14-19). *)
Definition partColors (p : Part) : string :=
  match p with
  | Soprano => "#ffe0e6"
  | Alto => "#e0ffe3"
  | Tenor => "#e0f0ff"
  | Bass => "#fff5cc"
  end.

(** The background of a slot (line 82): [member ? partColors[member.part]
    : "#f0f0f0"]; [null] and [undefined] are falsy. *)
Definition backgroundColor (member : Slot) : string :=
  match member with
  | Occupied m => partColors (part m)
  | Null | Undefined => "#f0f0f0"
  end.

(** The layout of one [Row] (lines 29-33).  All widths are whole numbers
    of pixels; the two divisions are exact, [memberWidth] and the
    difference of the two row widths being multiples of 110. *)
Definition memberWidth : Z := 110.

Definition leftMargin (rowIndex : nat) (members : list Slot) (maxCount : nat) : Z :=
  let totalRowWidth := (Z.of_nat maxCount * memberWidth)%Z in
  let currentRowWidth := (Z.of_nat (length members) * memberWidth)%Z in
  let indent := (Z.of_nat (rowIndex mod 2) * (memberWidth / 2))%Z in
  Z.max ((totalRowWidth - currentRowWidth) / 2 + indent) 0.

(** The slots one [Row] renders (lines 44-46), each with the row and the
    index its [DraggableMember] is given.  [map] skips the gap a write past
    the end leaves in an array; the model has [Undefined] there, so these
    definitions describe rows without [Undefined]. *)
Definition Row_slots (rowIndex : nat) (members : list Slot) (maxCount : nat)
  : list (nat * nat * Slot) :=
  imap (λ index member, (rowIndex, index, member)) (take maxCount members).

(** [Math.max(...rows.map((r) => r.length), 1)] (line 186). *)
Definition maxRowLength (rows : Grid) : nat :=
  max_list ((length <$> rows) ++ [1]).

(** All the slots on screen (lines 237-239). *)
Definition rendered_slots (rows : Grid) : list (nat * nat * Slot) :=
  concat (imap (λ i row, Row_slots i row (maxRowLength rows)) rows).

(** The total shown read-only (line 210):
    [Object.values(counts).reduce((sum, val) => sum + (parseInt(val) || 0), 0)],
    the values coming in the order of the keys, which is that of [parts];
    each addition rounds as the doubles do. *)
Definition total_count (counts : Part → string) : Double :=
  foldl (λ sum val, double_add sum (parseInt_or val 0)) (Finite 0)
    (counts <$> parts).

(** The item a dragged slot carries (line 59). *)
Module DragItem.
Record t : Set := mk { index : nat; row : nat }.
End DragItem.

(** The drop handler of the slot at [row], [index] (lines 65-69). *)
Module DraggableMember.
Definition drop (item : DragItem.t) (row index : nat) (st : AppState)
  : result AppState :=
  if decide (DragItem.row item ≠ row ∨ DragItem.index item ≠ index)
  then moveMember (DragItem.row item) (DragItem.index item) row index st
  else mret st.
End DraggableMember.

(** What the user can do.  A build draws its identifiers from the source
    given with the click. *)
Inductive Event : Type :=
| CountChange (p : Part) (value : string)
| RowCountChange (value : string)
| LayoutModeChange (mode : LayoutMode)
| RegenerateClick (uuidv4 : nat → string)
| Drop (item : DragItem.t) (row index : nat).

Definition handle (ev : Event) (st : AppState) : result AppState :=
  match ev with
  | CountChange p value => mret (setCounts p value st)
  | RowCountChange value => mret (setRowCount value st)
  | LayoutModeChange mode => mret (setLayoutMode mode st)
  | RegenerateClick uuidv4 => generateMembers uuidv4 st
  | Drop item row index => DraggableMember.drop item row index st
  end.

(** An address at which a slot is on screen. *)
Definition rendered_address (rows : Grid) (row index : nat) : Prop :=
  ∃ member, (row, index, member) ∈ rendered_slots rows.

(** A drop can only come from a slot on screen and land on a slot on
    screen; the other events are always possible. *)
Definition enabled (ev : Event) (st : AppState) : Prop :=
  match ev with
  | Drop item row index =>
      rendered_address (rows st) (DragItem.row item) (DragItem.index item)
      ∧ rendered_address (rows st) row index
  | _ => True
  end.

(** The states the component can be in: the initial one and those an
    enabled event leads to.  An event whose handler throws leaves the state
    as it was. *)
Inductive reachable : AppState → Prop :=
| reachable_initial : reachable initial_state
| reachable_step st ev st' :
    reachable st → enabled ev st → handle ev st = Ok st' → reachable st'.

(** All rows have the same length. *)
Definition rectangular (g : Grid) : Prop :=
  ∀ row1 row2, row1 ∈ g → row2 ∈ g → length row1 = length row2.

(** No slot is [undefined]: the grid has the type [(Member | null)[][]]. *)
Definition well_typed (g : Grid) : Prop :=
  ∀ row, row ∈ g → Undefined ∉ row.

(** ** Selecting members by position *)

(** [select_from P i l]: the elements of [l] whose position, counted from
    [i], satisfies [P], in the order of [l]. *)
Fixpoint select_from {A} (P : nat → Prop) `{!∀ p, Decision (P p)} (i : nat)
    (l : list A) : list A :=
  match l with
  | [] => []
  | x :: l => (if decide (P i) then [x] else []) ++ select_from P (S i) l
  end.

(** The round-robin rule in the words of the specification: of a source
    sequence dealt over [k] rows, row [j] receives the members at the
    positions [p] with [p mod k = j], in source order. *)
Definition round_robin_row {A} (k j : nat) (src : list A) : list A :=
  select_from (λ p, p mod k = j) 0 src.

(** What row [r] receives from [members] when they are dealt over
    [targetRows] with the counter starting at [i]. *)
Definition picks (i : nat) (members : list Member) (targetRows : list nat)
    (r : nat) : list Slot :=
  Occupied <$>
    select_from (λ p, targetRows !! (p mod length targetRows) = Some r) i members.

(** ** The placement policies *)

(** The fewest rows for which every target row of the policy exists. *)
Definition rows_required (mode : LayoutMode) : nat :=
  match mode with
  | auto => 1
  | condition1 => 3
  | condition2 => 4
  end.

(** The placement policies in the words of the specification: each policy
    is a list of groups, a group being a source sequence and the rows it
    is dealt over. *)
Definition groups (mode : LayoutMode) (rowCount : nat) (r : Roster)
  : list (list Member * list nat) :=
  match mode with
  | auto => [(soprano r ++ alto r ++ tenor r ++ bass r, seq 0 rowCount)]
  | condition1 => [(soprano r ++ alto r, [0; 1]); (tenor r ++ bass r, [2])]
  | condition2 => [(soprano r ++ alto r, [0; 1; 2]); (tenor r ++ bass r, [3])]
  end.

(** ** Addresses and contents of a grid *)

(** The content of the slot at an address, if the address exists. *)
Definition slot_at (g : Grid) (row index : nat) : option Slot :=
  g !! row ≫= (.!! index).

(** An address is valid when it names an existing row and an existing
    position of that row. *)
Definition valid_address (g : Grid) (row index : nat) : Prop :=
  is_Some (slot_at g row index).

Definition slot_member (s : Slot) : option Member :=
  match s with
  | Occupied m => Some m
  | Null | Undefined => None
  end.

(** The members held by the slots of a grid, row by row, one entry per
    occupied slot. *)
Definition members_of_grid (g : Grid) : list Member :=
  omap slot_member (concat g).

(** The initial letter used in the labels of a category. *)
Definition initial (p : Part) : string :=
  match p with
  | Soprano => "S"
  | Alto => "A"
  | Tenor => "T"
  | Bass => "B"
  end.

Definition members_of (r : Roster) (p : Part) : list Member :=
  match p with
  | Soprano => soprano r
  | Alto => alto r
  | Tenor => tenor r
  | Bass => bass r
  end.

(** Conservation of a roster by a grid: as many occupied slots as the
    roster has members, each holding a member of the roster, and no member
    in two slots. *)
Definition conserved (members : list Member) (g : Grid) : Prop :=
  length (members_of_grid g) = length members
  ∧ (∀ m, m ∈ members_of_grid g → m ∈ members)
  ∧ NoDup (members_of_grid g).

(** What holds of the state whatever the user does. *)
Definition sound (st : AppState) : Prop :=
  1 ≤ rowCount st
  ∧ rectangular (rows st)
  ∧ well_typed (rows st)
  ∧ NoDup (members_of_grid (rows st)).

(** ** Sample inputs *)

(** An identifier source for the examples. *)
Definition sample_uuid (k : nat) : string := "id-" +:+ pretty k.

Definition counts_of (s a t b : string) (p : Part) : string :=
  match p with
  | Soprano => s
  | Alto => a
  | Tenor => t
  | Bass => b
  end.

(** The members and the grid of the build with two sopranos, two altos
    and two rows under [auto]. *)
Definition S0 : Member := {| id := sample_uuid 0; name := "S0"; part := Soprano |}.
Definition S1 : Member := {| id := sample_uuid 1; name := "S1"; part := Soprano |}.
Definition A0 : Member := {| id := sample_uuid 2; name := "A0"; part := Alto |}.
Definition A1 : Member := {| id := sample_uuid 3; name := "A1"; part := Alto |}.

Definition sample_grid : Grid :=
  [[Occupied S0; Occupied A0]; [Occupied S1; Occupied A1]].

Definition sample_state : AppState :=
  {| layoutMode := auto; counts := counts_of "2" "2" "0" "0"; rowCount := 2;
     rows := sample_grid |}.

(** The initial configuration after choosing condition1 and typing 2 as
    row count. *)
Definition condition1_two_rows : AppState :=
  setRowCount "2" (setLayoutMode condition1 initial_state).

(** The initial configuration after choosing condition2, the row count
    still being the initial 3. *)
Definition condition2_default_rows : AppState :=
  setLayoutMode condition2 initial_state.

(** ** Facts about the host operations *)

Section host_facts.
Context {A : Type}.
Implicit Types (f : nat → A) (n i : nat).

Lemma Array_from_length n f : length (Array_from n f) = n.
Proof. unfold Array_from. by rewrite length_fmap, length_seq. Qed.

Lemma Array_from_lookup n f i : i < n → Array_from n f !! i = Some (f i).
Proof.
  intros Hi. unfold Array_from.
  by rewrite list_lookup_fmap, lookup_seq_lt.
Qed.

Lemma Array_from_const n (x : A) : Array_from n (λ _, x) = replicate n x.
Proof.
  unfold Array_from. generalize 0.
  induction n as [|n IH]; intros k; simpl; [done|]. by rewrite IH.
Qed.

Lemma result_bind_Ok {B} (r : result A) (k : A → result B) b :
  r ≫= k = Ok b ↔ ∃ a, r = Ok a ∧ k a = Ok b.
Proof.
  destruct r as [a|e]; simpl; split.
  - eauto.
  - by intros (a' & [= ->] & ?).
  - done.
  - by intros (a' & ? & ?).
Qed.
End host_facts.

Lemma elem_of_concat {A} (x : A) (l : list A) (ls : list (list A)) :
  x ∈ l → l ∈ ls → x ∈ concat ls.
Proof.
  intros Hx Hl. apply list_elem_of_In in Hx, Hl. apply list_elem_of_In.
  apply in_concat. eauto.
Qed.

Lemma Array_from_id n : Array_from n (λ i, i) = seq 0 n.
Proof. unfold Array_from. apply list_fmap_id. Qed.

Section select_facts.
Context {A : Type}.
Implicit Types (l : list A) (i j k n : nat).

Lemma select_from_ext (P Q : nat → Prop) `{!∀ p, Decision (P p)}
    `{!∀ p, Decision (Q p)} i l :
  (∀ p, i ≤ p → P p ↔ Q p) → select_from P i l = select_from Q i l.
Proof.
  revert i. induction l as [|x l IH]; intros i HPQ; simpl; [done|].
  rewrite (IH (S i)) by (intros p Hp; apply HPQ; lia).
  destruct (decide (P i)) as [HP|HP], (decide (Q i)) as [HQ|HQ]; try done.
  - apply HPQ in HP; [done | lia].
  - apply HPQ in HQ; [done | lia].
Qed.

Lemma select_from_none (P : nat → Prop) `{!∀ p, Decision (P p)} i l :
  (∀ p, i ≤ p → ¬ P p) → select_from P i l = [].
Proof.
  revert i. induction l as [|x l IH]; intros i HP; simpl; [done|].
  rewrite (IH (S i)) by (intros p Hp; apply HP; lia).
  destruct (decide (P i)) as [HPi|HPi]; [|done]. by apply HP in HPi.
Qed.

Lemma select_from_all (P : nat → Prop) `{!∀ p, Decision (P p)} i l :
  (∀ p, i ≤ p → P p) → select_from P i l = l.
Proof.
  revert i. induction l as [|x l IH]; intros i HP; simpl; [done|].
  rewrite (IH (S i)) by (intros p Hp; apply HP; lia).
  destruct (decide (P i)) as [HPi|HPi]; [done|]. destruct HPi. by apply HP.
Qed.

(** Position [d] steps ahead of the counter is the first one in residue
    class [j]; then the [n]-th selected element is [k * n] further on. *)
Lemma select_from_mod_lookup k j i d n l :
  0 < k → d < k → (i + d) mod k = j →
  select_from (λ p, p mod k = j) i l !! n = l !! (d + n * k).
Proof.
  intros Hk. revert i d n.
  induction l as [|x l IH]; intros i d n Hd Hj; simpl.
  { by rewrite !lookup_nil. }
  destruct d as [|d].
  - rewrite Nat.add_0_r in Hj. rewrite decide_True by done. simpl.
    destruct n as [|n]; [done|]. simpl.
    rewrite (IH (S i) (k - 1) n).
    + replace (k + n * k) with (S (k - 1 + n * k)) by lia. done.
    + lia.
    + replace (S i + (k - 1)) with (i + 1 * k) by lia.
      by rewrite Nat.Div0.mod_add.
  - rewrite decide_False; simpl.
    + rewrite (IH (S i) d n); [done | lia |].
      by replace (S i + d) with (i + S d) by lia.
    + intros Hi.
      assert (Hdm : (i + S d) mod k = (i mod k + S d) mod k)
        by (by rewrite Nat.Div0.add_mod_idemp_l).
      rewrite Hj, Hi in Hdm.
      assert (j < k) by (subst j; apply Nat.mod_upper_bound; lia).
      destruct (decide (j + S d < k)) as [Hlt|Hge].
      * rewrite Nat.mod_small in Hdm by done. lia.
      * assert (Hq : (j + S d) mod k = j + S d - k).
        { symmetry. apply (Nat.mod_unique _ _ 1); lia. }
        lia.
Qed.

(** Row [j] of a round-robin over [k] rows is [src[j], src[j + k],
    src[j + 2k], ...]. *)
Lemma round_robin_row_lookup k j n (src : list A) :
  j < k → round_robin_row k j src !! n = src !! (j + n * k).
Proof.
  intros Hj. unfold round_robin_row.
  apply select_from_mod_lookup; [lia | done |].
  by rewrite Nat.add_0_l, Nat.mod_small.
Qed.
End select_facts.

(** ** Distribution: what [flatInsert] does to the rows *)

Section flatInsert_facts.
Implicit Types (members : list Member) (targetRows : list nat)
  (newRows : Grid) (i r : nat).

Lemma target_row_exists targetRows newRows i :
  targetRows ≠ [] → Forall (λ t, t < length newRows) targetRows →
  ∃ t row, targetRows !! (i mod length targetRows) = Some t
           ∧ newRows !! t = Some row.
Proof.
  intros Hne Hall.
  assert (Hlt : i mod length targetRows < length targetRows).
  { apply Nat.mod_upper_bound. by destruct targetRows. }
  destruct (lookup_lt_is_Some_2 _ _ Hlt) as [t Ht].
  assert (Htl : t < length newRows).
  { by eapply (proj1 (Forall_lookup _ _) Hall). }
  destruct (lookup_lt_is_Some_2 _ _ Htl) as [row Hrow]. eauto.
Qed.

(** Whenever the loop completes, the rows have that same form, whether
    or not every target row exists. *)
Lemma flatInsert_from_inv i members targetRows newRows newRows' :
  flatInsert_from i members targetRows newRows = Ok newRows' →
  newRows' = imap (λ r row, row ++ picks i members targetRows r) newRows.
Proof.
  revert i newRows.
  induction members as [|m members IH]; intros i newRows; simpl.
  - intros [= <-]. apply list_eq; intros r. rewrite list_lookup_imap.
    destruct (newRows !! r); simpl; [|done]. unfold picks; simpl.
    by rewrite app_nil_r.
  - intros (rows1 & Hpush & Hrest)%result_bind_Ok.
    apply IH in Hrest as ->. unfold push_row in Hpush.
    destruct (targetRows !! (i mod length targetRows)) as [t|] eqn:Ht;
      [|done].
    destruct (newRows !! t) as [row|] eqn:Hrow; [|done].
    injection Hpush as <-.
    apply list_eq; intros r. rewrite !list_lookup_imap.
    unfold picks; simpl. rewrite Ht.
    destruct (decide (t = r)) as [->|Hr].
    + rewrite list_lookup_insert_eq by (by eapply lookup_lt_Some).
      rewrite Hrow. simpl. rewrite decide_True by done.
      by rewrite fmap_app, <- !app_assoc.
    + rewrite list_lookup_insert_ne by done.
      rewrite decide_False by congruence. done.
Qed.

(** With every target row present the loop completes. *)
Lemma flatInsert_from_succeeds i members targetRows newRows :
  targetRows ≠ [] → Forall (λ t, t < length newRows) targetRows →
  succeeds (flatInsert_from i members targetRows newRows).
Proof.
  intros Hne. revert i newRows.
  induction members as [|m members IH]; intros i newRows Hall; simpl.
  - by eexists.
  - destruct (target_row_exists targetRows newRows i Hne Hall)
      as (t & row & Ht & Hrow).
    rewrite Ht. simpl. rewrite Hrow. simpl.
    apply IH. by rewrite length_insert.
Qed.

(** With distinct target rows, the [j]-th of them receives the positions
    congruent to [j]. *)
Lemma picks_target members targetRows j r :
  NoDup targetRows → targetRows !! j = Some r →
  picks 0 members targetRows r
  = Occupied <$> round_robin_row (length targetRows) j members.
Proof.
  intros Hnd Hj. unfold picks, round_robin_row. f_equal.
  apply select_from_ext; intros p _.
  assert (Hjl : j < length targetRows) by (by eapply lookup_lt_Some).
  split.
  - intros Hp. by eapply NoDup_lookup.
  - by intros ->.
Qed.

Lemma picks_other members targetRows i r :
  r ∉ targetRows → picks i members targetRows r = [].
Proof.
  intros Hr. unfold picks. rewrite select_from_none; [done|].
  intros p _ Hp. apply Hr. by eapply list_elem_of_lookup_2.
Qed.

Lemma round_robin_row_single {A} (src : list A) :
  round_robin_row 1 0 src = src.
Proof.
  unfold round_robin_row. apply select_from_all.
  intros p _. apply Nat.mod_1_r.
Qed.
End flatInsert_facts.

(** ** Distribution under each placement policy *)

Section distribute_facts.
Implicit Types (mode : LayoutMode) (r : Roster) (R t : nat).

Lemma empty_rows_lookup R t :
  t < R → Array_from R (λ _, @nil Slot) !! t = Some [].
Proof. intros Ht. by rewrite Array_from_lookup. Qed.

Lemma Forall_lt_seq R : Forall (λ t, t < R) (seq 0 R).
Proof. apply Forall_forall. intros t Ht. apply elem_of_seq in Ht. lia. Qed.

Lemma distribute_succeeds mode R r :
  rows_required mode ≤ R → succeeds (distribute mode R r).
Proof.
  intros HR. unfold distribute, flatInsert.
  destruct mode; simpl in HR.
  - apply flatInsert_from_succeeds.
    + rewrite Array_from_id. destruct R; [lia | done].
    + rewrite Array_from_length, Array_from_id. apply Forall_lt_seq.
  - destruct (flatInsert_from_succeeds 0 (soprano r ++ alto r) [0; 1]
                (Array_from R (λ _, []))) as [rows1 Hrows1]; [done | |].
    { rewrite Array_from_length. repeat constructor; lia. }
    rewrite Hrows1. simpl.
    apply flatInsert_from_succeeds; [done|].
    apply flatInsert_from_inv in Hrows1 as ->.
    rewrite length_imap, Array_from_length. repeat constructor; lia.
  - destruct (flatInsert_from_succeeds 0 (soprano r ++ alto r) [0; 1; 2]
                (Array_from R (λ _, []))) as [rows1 Hrows1]; [done | |].
    { rewrite Array_from_length. repeat constructor; lia. }
    rewrite Hrows1. simpl.
    apply flatInsert_from_succeeds; [done|].
    apply flatInsert_from_inv in Hrows1 as ->.
    rewrite length_imap, Array_from_length. repeat constructor; lia.
Qed.

(** The raw rows, row by row, in terms of [picks]. *)
Lemma distribute_picks mode R r raw :
  distribute mode R r = Ok raw →
  length raw = R ∧
  ∀ t, t < R →
    raw !! t = Some
      match mode with
      | auto => picks 0 (all_members r) (seq 0 R) t
      | condition1 =>
          picks 0 (soprano r ++ alto r) [0; 1] t
          ++ picks 0 (tenor r ++ bass r) [2] t
      | condition2 =>
          picks 0 (soprano r ++ alto r) [0; 1; 2] t
          ++ picks 0 (tenor r ++ bass r) [3] t
      end.
Proof.
  unfold distribute, flatInsert. destruct mode.
  - rewrite Array_from_id. intros ->%flatInsert_from_inv. split.
    + by rewrite length_imap, Array_from_length.
    + intros t Ht. by rewrite list_lookup_imap, empty_rows_lookup.
  - intros (rows1 & ->%flatInsert_from_inv & ->%flatInsert_from_inv)%result_bind_Ok.
    split.
    + by rewrite !length_imap, Array_from_length.
    + intros t Ht. by rewrite !list_lookup_imap, empty_rows_lookup.
  - intros (rows1 & ->%flatInsert_from_inv & ->%flatInsert_from_inv)%result_bind_Ok.
    split.
    + by rewrite !length_imap, Array_from_length.
    + intros t Ht. by rewrite !list_lookup_imap, empty_rows_lookup.
Qed.

(** Each existing target row of a group holds its round-robin share of
    the group's source sequence, and nothing else. *)
Lemma distribute_groups mode R r raw src targetRows j t :
  distribute mode R r = Ok raw →
  (src, targetRows) ∈ groups mode R r →
  targetRows !! j = Some t → t < R →
  raw !! t = Some (Occupied <$> round_robin_row (length targetRows) j src).
Proof.
  intros [_ Hraw]%distribute_picks Hg Hj Ht.
  rewrite (Hraw t Ht). f_equal.
  destruct mode; simpl in Hg.
  - apply list_elem_of_singleton in Hg as [= -> ->].
    apply picks_target; [apply NoDup_seq | done].
  - apply elem_of_cons in Hg as [[= -> ->] | Hg].
    + rewrite (picks_target _ _ j t); [| by apply NoDup_ListNoDup; repeat constructor; simpl; intuition lia | done].
      rewrite picks_other, app_nil_r; [done|].
      apply list_elem_of_lookup_2 in Hj. set_unfold; lia.
    + apply list_elem_of_singleton in Hg as [= -> ->].
      rewrite (picks_other _ [0; 1]).
      * apply picks_target; [apply NoDup_singleton | done].
      * apply list_elem_of_lookup_2 in Hj. set_unfold; lia.
  - apply elem_of_cons in Hg as [[= -> ->] | Hg].
    + rewrite (picks_target _ _ j t); [| by apply NoDup_ListNoDup; repeat constructor; simpl; intuition lia | done].
      rewrite picks_other, app_nil_r; [done|].
      apply list_elem_of_lookup_2 in Hj. set_unfold; lia.
    + apply list_elem_of_singleton in Hg as [= -> ->].
      rewrite (picks_other _ [0; 1; 2]).
      * apply picks_target; [apply NoDup_singleton | done].
      * apply list_elem_of_lookup_2 in Hj. set_unfold; lia.
Qed.
End distribute_facts.

(** ** Balancing *)

Section balance_facts.
Implicit Types (raw : Grid) (row : list Slot) (M : nat).

Lemma maxLength_ge raw row : row ∈ raw → length row ≤ maxLength raw.
Proof.
  intros Hrow. apply max_list_elem_of_le. by apply list_elem_of_fmap_2.
Qed.

Lemma maxLength_attained raw :
  raw ≠ [] → ∃ row, row ∈ raw ∧ length row = maxLength raw.
Proof.
  intros Hne.
  assert (Hin : maxLength raw ∈ length <$> raw).
  { apply max_list_elem_of. by destruct raw. }
  apply list_elem_of_fmap in Hin as (row & Hlen & Hrow). eauto.
Qed.

(** A row no longer than [M] is not cut; it is padded on both sides. *)
Lemma balance_row_fits M row :
  length row ≤ M →
  balance_row M row
  = replicate ((M - length row) / 2) Null ++ row
    ++ replicate (M - length row - (M - length row) / 2) Null.
Proof.
  intros Hlen. unfold balance_row.
  by rewrite take_ge, !Array_from_const by done.
Qed.

Lemma balance_row_length M row : length (balance_row M row) = M.
Proof.
  unfold balance_row.
  rewrite !length_app, !Array_from_length, length_take.
  assert ((M - M `min` length row) / 2 ≤ M - M `min` length row)
    by (apply Nat.Div0.div_le_upper_bound; lia).
  lia.
Qed.

Lemma balancedRows_lookup raw i row :
  raw !! i = Some row →
  balancedRows raw !! i
  = Some (replicate ((maxLength raw - length row) / 2) Null ++ row
          ++ replicate (maxLength raw - length row
                        - (maxLength raw - length row) / 2) Null).
Proof.
  intros Hrow. unfold balancedRows.
  rewrite list_lookup_fmap, Hrow. simpl. f_equal.
  apply balance_row_fits, maxLength_ge. by eapply list_elem_of_lookup_2.
Qed.

Lemma balancedRows_row_length raw row :
  row ∈ balancedRows raw → length row = maxLength raw.
Proof.
  unfold balancedRows.
  intros (row0 & -> & _)%list_elem_of_fmap. apply balance_row_length.
Qed.
End balance_facts.

(** ** Exchanging two slots *)

Section exchange_facts.
Implicit Types (g : Grid) (row : list Slot) (r i : nat) (v x y : Slot).

Lemma slot_at_Some g r i v :
  slot_at g r i = Some v ↔ ∃ row, g !! r = Some row ∧ row !! i = Some v.
Proof. unfold slot_at. apply bind_Some. Qed.

(** Two grids with the same row lengths and the same content at every
    address are the same grid. *)
Lemma grid_ext g1 g2 :
  length <$> g1 = length <$> g2 →
  (∀ r i, slot_at g1 r i = slot_at g2 r i) → g1 = g2.
Proof.
  intros Hlen Hslot. apply list_eq; intros r.
  assert (Hr : (length <$> g1) !! r = (length <$> g2) !! r) by (by rewrite Hlen).
  rewrite !list_lookup_fmap in Hr.
  specialize (Hslot r). unfold slot_at in Hslot.
  destruct (g1 !! r) as [row1|], (g2 !! r) as [row2|]; simpl in *; try done.
  f_equal. by apply list_eq.
Qed.

Lemma insert_perm_cons row i old v :
  row !! i = Some old →
  ∃ rest, row ≡ₚ old :: rest ∧ <[i:=v]> row ≡ₚ v :: rest.
Proof.
  intros Hi. exists (take i row ++ drop (S i) row). split.
  - rewrite <- (take_drop_middle row i old) at 1 by done.
    by rewrite Permutation_middle.
  - rewrite insert_take_drop by (by eapply lookup_lt_Some).
    by rewrite Permutation_middle.
Qed.

Lemma concat_insert_cons g r row row' x rest :
  g !! r = Some row → row' ≡ₚ x :: rest →
  concat (<[r:=row']> g) ≡ₚ x :: concat (<[r:=rest]> g).
Proof.
  revert r. induction g as [|row0 g IH]; intros [|r] Hr Hperm; simpl in *;
    try done.
  - by rewrite Hperm.
  - rewrite (IH r) by done. by rewrite Permutation_middle.
Qed.

Lemma read_slot_valid g r i v :
  slot_at g r i = Some v → read_slot g r i = Ok v.
Proof.
  intros (row & Hrow & Hi)%slot_at_Some.
  unfold read_slot, array_get. by rewrite Hrow, Hi.
Qed.

(** A write to an existing address changes that slot only, keeps every
    row length, and trades the old content for the new one. *)
Lemma write_slot_valid g r i old v :
  slot_at g r i = Some old →
  ∃ g', write_slot g r i v = Ok g' ∧
    length <$> g' = length <$> g ∧
    (∀ r' i', slot_at g' r' i'
              = if decide (r' = r ∧ i' = i) then Some v else slot_at g r' i') ∧
    ∃ rest, concat g ≡ₚ old :: rest ∧ concat g' ≡ₚ v :: rest.
Proof.
  intros (row & Hrow & Hi)%slot_at_Some.
  assert (Hlt : i < length row) by (by eapply lookup_lt_Some).
  unfold write_slot, array_set. rewrite Hrow, decide_True by done.
  eexists; split; [done|]. split; [|split].
  - rewrite list_fmap_insert, length_insert.
    apply list_insert_id. by rewrite list_lookup_fmap, Hrow.
  - intros r' i'. unfold slot_at.
    destruct (decide (r' = r)) as [->|Hr].
    + rewrite list_lookup_insert_eq by (by eapply lookup_lt_Some).
      rewrite Hrow. simpl.
      destruct (decide (i' = i)) as [->|Hi'].
      * rewrite decide_True by done. by apply list_lookup_insert_eq.
      * rewrite decide_False by tauto. by apply list_lookup_insert_ne.
    + rewrite list_lookup_insert_ne by done.
      by rewrite decide_False by tauto.
  - destruct (insert_perm_cons row i old v Hi) as (rest & Hold & Hnew).
    exists (concat (<[r:=rest]> g)). split.
    + rewrite <- (list_insert_id g r row) at 1 by done.
      by apply (concat_insert_cons g r row).
    + by apply (concat_insert_cons g r row).
Qed.

(** The exchange of two existing slots. *)
Lemma exchange_valid g fromRow fromIndex toRow toIndex x y :
  slot_at g fromRow fromIndex = Some x →
  slot_at g toRow toIndex = Some y →
  ∃ g', exchange fromRow fromIndex toRow toIndex g = Ok g' ∧
    length <$> g' = length <$> g ∧
    (∀ r i, slot_at g' r i
            = if decide (r = toRow ∧ i = toIndex) then Some x
              else if decide (r = fromRow ∧ i = fromIndex) then Some y
              else slot_at g r i) ∧
    concat g' ≡ₚ concat g.
Proof.
  intros Hx Hy. unfold exchange. rewrite list_fmap_id.
  rewrite (read_slot_valid _ _ _ _ Hx). simpl.
  rewrite (read_slot_valid _ _ _ _ Hy). simpl.
  destruct (write_slot_valid g fromRow fromIndex x y Hx)
    as (g1 & -> & Hlen1 & Hslot1 & rest1 & Hg & Hg1). simpl.
  assert (Hy1 : slot_at g1 toRow toIndex = Some y).
  { rewrite Hslot1. by destruct (decide (toRow = fromRow ∧ toIndex = fromIndex)). }
  destruct (write_slot_valid g1 toRow toIndex y x Hy1)
    as (g2 & -> & Hlen2 & Hslot2 & rest2 & Hg1' & Hg2). simpl.
  eexists; split; [done|]. split; [|split].
  - by rewrite Hlen2.
  - intros r i. rewrite Hslot2, Hslot1. done.
  - rewrite Hg2, Hg. apply Permutation_skip.
    rewrite Hg1 in Hg1'. symmetry. by eapply Permutation_cons_inv.
Qed.
End exchange_facts.

(** ** Conservation of members *)

Section conservation_facts.
Implicit Types (g raw : Grid) (row : list Slot) (members : list Member).

Lemma members_of_occupied members :
  omap slot_member (Occupied <$> members) = members.
Proof. induction members as [|m members IH]; csimpl; [done|]. by rewrite IH. Qed.

Lemma flatInsert_from_concat i members targetRows newRows newRows' :
  flatInsert_from i members targetRows newRows = Ok newRows' →
  concat newRows' ≡ₚ concat newRows ++ (Occupied <$> members).
Proof.
  revert i newRows.
  induction members as [|m members IH]; intros i newRows; simpl.
  - intros [= <-]. by rewrite app_nil_r.
  - intros (rows1 & Hpush & Hrest)%result_bind_Ok.
    rewrite (IH _ _ Hrest). unfold push_row in Hpush.
    destruct (targetRows !! (i mod length targetRows)) as [t|]; [|done].
    destruct (newRows !! t) as [row|] eqn:Hrow; [|done].
    injection Hpush as <-.
    rewrite (concat_insert_cons newRows t row _ (Occupied m) row)
      by (done || by rewrite Permutation_app_comm).
    rewrite list_insert_id by done.
    by rewrite <- Permutation_middle.
Qed.

Lemma concat_empty_rows R : concat (Array_from R (λ _, @nil Slot)) = [].
Proof.
  rewrite Array_from_const. induction R as [|R IH]; simpl; [done|]. by rewrite IH.
Qed.

(** The raw rows hold the roster, every member once. *)
Lemma distribute_concat mode R r raw :
  distribute mode R r = Ok raw →
  concat raw ≡ₚ Occupied <$> all_members r.
Proof.
  unfold distribute, flatInsert, all_members. destruct mode.
  - intros H%flatInsert_from_concat. by rewrite H, concat_empty_rows.
  - intros (rows1 & H1%flatInsert_from_concat
            & H2%flatInsert_from_concat)%result_bind_Ok.
    rewrite H2, H1, concat_empty_rows. simpl.
    by rewrite <- fmap_app, <- app_assoc.
  - intros (rows1 & H1%flatInsert_from_concat
            & H2%flatInsert_from_concat)%result_bind_Ok.
    rewrite H2, H1, concat_empty_rows. simpl.
    by rewrite <- fmap_app, <- app_assoc.
Qed.

Lemma omap_replicate_Null n : omap slot_member (replicate n Null) = [].
Proof. induction n as [|n IH]; csimpl; [done|]. apply IH. Qed.

(** Balancing adds empty slots only. *)
Lemma members_of_balance_row M row :
  length row ≤ M →
  omap slot_member (balance_row M row) = omap slot_member row.
Proof.
  intros Hlen. rewrite balance_row_fits by done.
  by rewrite !omap_app, !omap_replicate_Null, app_nil_r.
Qed.

Lemma members_of_balancedRows raw :
  members_of_grid (balancedRows raw) = members_of_grid raw.
Proof.
  unfold members_of_grid, balancedRows.
  assert (Hall : Forall (λ row, length row ≤ maxLength raw) raw).
  { apply Forall_forall. intros row. apply maxLength_ge. }
  revert Hall. generalize (maxLength raw) as M.
  induction raw as [|row raw IH]; intros M Hall; simpl; [done|].
  apply Forall_cons in Hall as [Hrow Hall].
  by rewrite !omap_app, members_of_balance_row, IH.
Qed.
End conservation_facts.

(** ** The roster *)

Section roster_facts.
Variable uuidv4 : nat → string.
Implicit Types (p : Part) (count : string) (counts : Part → string).

Lemma roster_members_of counts p :
  ∃ calls, members_of (roster uuidv4 counts) p
           = category uuidv4 (initial p) p (counts p) calls.
Proof. destruct p; simpl; eauto. Qed.

Lemma category_length init p count calls :
  length (category uuidv4 init p count calls)
  = ToLength (or_default (parseInt count) 0).
Proof. apply Array_from_length. Qed.

Lemma category_names init p count calls :
  name <$> category uuidv4 init p count calls
  = (λ i, init +:+ pretty i) <$> seq 0 (ToLength (or_default (parseInt count) 0)).
Proof.
  unfold category, Array_from. rewrite <- list_fmap_compose. done.
Qed.

Lemma category_part init p count calls m :
  m ∈ category uuidv4 init p count calls → part m = p.
Proof.
  unfold category, Array_from. by intros (i & -> & _)%list_elem_of_fmap.
Qed.

Lemma category_NoDup init p count calls :
  NoDup (category uuidv4 init p count calls).
Proof.
  apply (NoDup_fmap_1 name). rewrite category_names.
  apply NoDup_fmap_2; [|apply NoDup_seq].
  intros i j Hij. by apply (inj (String.app init)), (inj pretty) in Hij.
Qed.

(** Labels tell the members of one build apart: no two are equal. *)
Lemma roster_NoDup counts : NoDup (all_members (roster uuidv4 counts)).
Proof.
  unfold all_members, roster; simpl.
  repeat (apply NoDup_app; split; [apply category_NoDup | split]);
    try apply category_NoDup.
  all: intros m Hm%category_part Hin.
  all: repeat (apply elem_of_app in Hin as [Hin|Hin]);
         apply category_part in Hin; congruence.
Qed.
End roster_facts.

(** ** Reading decimal numerals *)

Section parseInt_facts.
Implicit Types (x d : N) (s : string).

Lemma digit_value_pretty d : (d < 10)%N → digit_value (pretty_N_char d) = Some d.
Proof.
  intros Hd.
  assert (d = 0 ∨ d = 1 ∨ d = 2 ∨ d = 3 ∨ d = 4 ∨ d = 5 ∨ d = 6 ∨ d = 7
          ∨ d = 8 ∨ d = 9)%N as Hcases by lia.
  repeat (destruct Hcases as [->|Hcases]; [done|]). by subst d.
Qed.

(** Reading the numeral of a positive [x] in front of [s] leaves [x] in
    the accumulator. *)
Lemma read_digits_pretty x s :
  (0 < x)%N →
  read_digits 10 (pretty_N_go x s) None = read_digits 10 s (Some x).
Proof.
  revert s. induction (N.lt_wf_0 x) as [x _ IH]; intros s Hx.
  rewrite pretty_N_go_step by done.
  assert (Hmod : (x `mod` 10 < 10)%N) by (by apply N.mod_lt).
  destruct (decide (x < 10)%N) as [Hsmall|Hbig].
  - rewrite N.div_small, pretty_N_go_0 by done. simpl.
    rewrite digit_value_pretty, bool_decide_eq_true_2 by done.
    by rewrite N.mod_small by done.
  - rewrite IH; [| apply N.div_lt; lia | apply N.div_str_pos; lia ].
    simpl. rewrite digit_value_pretty, bool_decide_eq_true_2 by done.
    do 2 f_equal. rewrite (N.div_mod x 10) at 3 by done. lia.
Qed.

(** The numeral of a positive number starts with a digit from 1 to 9. *)
Lemma pretty_N_go_head x s :
  (0 < x)%N →
  ∃ d s', (0 < d < 10)%N ∧ pretty_N_go x s = String (pretty_N_char d) s'.
Proof.
  revert s. induction (N.lt_wf_0 x) as [x _ IH]; intros s Hx.
  rewrite pretty_N_go_step by done.
  destruct (decide (x < 10)%N) as [Hsmall|Hbig].
  - rewrite N.div_small, pretty_N_go_0, N.mod_small by done.
    exists x, s. split; [lia | done].
  - apply IH; [apply N.div_lt; lia | apply N.div_str_pos; lia].
Qed.

Lemma parseInt_digit_head d s :
  (0 < d < 10)%N →
  parseInt (String (pretty_N_char d) s)
  = match read_digits 10 (String (pretty_N_char d) s) None with
    | None => NaN
    | Some n => Int (1 * Z.of_N n)
    end.
Proof.
  intros Hd.
  assert (d = 1 ∨ d = 2 ∨ d = 3 ∨ d = 4 ∨ d = 5 ∨ d = 6 ∨ d = 7
          ∨ d = 8 ∨ d = 9)%N as Hcases by lia.
  repeat (destruct Hcases as [->|Hcases]; [done|]). by subst d.
Qed.

(** [parseInt] reads back the decimal numeral of every natural number. *)
Lemma parseInt_pretty (n : nat) : parseInt (pretty n) = Int (Z.of_nat n).
Proof.
  unfold pretty, pretty_nat, pretty, pretty_N.
  destruct (decide (N.of_nat n = 0)%N) as [H0|Hpos].
  - by replace n with 0 by lia.
  - destruct (pretty_N_go_head (N.of_nat n) "") as (d & s' & Hd & Hs); [lia|].
    rewrite Hs, parseInt_digit_head by done.
    rewrite <- Hs, read_digits_pretty by lia. simpl. f_equal. lia.
Qed.

Lemma or_default_nonneg (n : nat) : or_default (Int (Z.of_nat n)) 0 = Z.of_nat n.
Proof. destruct n; [done|]. simpl. done. Qed.
End parseInt_facts.

(** ** The operations on the state *)

Section state_facts.
Variable uuidv4 : nat → string.
Implicit Types (st : AppState) (g : Grid).

Lemma setRows_rows st : setRows (rows st) st = st.
Proof. by destruct st. Qed.

Lemma generateMembers_Ok st st' :
  generateMembers uuidv4 st = Ok st' ↔
  ∃ raw, distribute (layoutMode st) (rowCount st) (roster uuidv4 (counts st)) = Ok raw
         ∧ st' = setRows (balancedRows raw) st.
Proof.
  unfold generateMembers, generate. split.
  - intros (g & (raw & Hraw & [= <-])%result_bind_Ok & [= <-])%result_bind_Ok.
    eauto.
  - intros (raw & -> & ->). done.
Qed.

Lemma generateMembers_succeeds st :
  rows_required (layoutMode st) ≤ rowCount st →
  succeeds (generateMembers uuidv4 st).
Proof.
  intros HR.
  destruct (distribute_succeeds _ _ (roster uuidv4 (counts st)) HR) as [raw Hraw].
  exists (setRows (balancedRows raw) st). apply generateMembers_Ok. eauto.
Qed.

Lemma moveMember_Ok fromRow fromIndex toRow toIndex st st' :
  moveMember fromRow fromIndex toRow toIndex st = Ok st' ↔
  ∃ g, exchange fromRow fromIndex toRow toIndex (rows st) = Ok g
       ∧ st' = setRows g st.
Proof.
  unfold moveMember. split.
  - intros (g & Hg & [= <-])%result_bind_Ok. eauto.
  - intros (g & -> & ->). done.
Qed.

End state_facts.

(** ** Target rows that were used exist *)

Section target_facts.
Implicit Types (members : list Member) (targetRows : list nat) (newRows : Grid).

Lemma flatInsert_from_targets i members targetRows newRows newRows' q m :
  flatInsert_from i members targetRows newRows = Ok newRows' →
  members !! q = Some m →
  ∃ t, targetRows !! ((i + q) mod length targetRows) = Some t
       ∧ t < length newRows.
Proof.
  revert i q newRows.
  induction members as [|m0 members IH]; intros i q newRows; simpl; [done|].
  intros (rows1 & Hpush & Hrest)%result_bind_Ok Hq.
  unfold push_row in Hpush.
  destruct (targetRows !! (i mod length targetRows)) as [t|] eqn:Ht; [|done].
  destruct (newRows !! t) as [row|] eqn:Hrow; [|done].
  injection Hpush as <-.
  destruct q as [|q]; simpl in Hq.
  - exists t. rewrite Nat.add_0_r. split; [done|]. by eapply lookup_lt_Some.
  - destruct (IH _ _ _ Hrest Hq) as (t' & Ht' & Hlt).
    exists t'. rewrite length_insert in Hlt.
    by replace (i + S q) with (S i + q) by lia.
Qed.

Lemma distribute_targets mode R r raw src targetRows p m :
  distribute mode R r = Ok raw →
  (src, targetRows) ∈ groups mode R r →
  src !! p = Some m →
  ∃ t, targetRows !! (p mod length targetRows) = Some t ∧ t < R.
Proof.
  unfold distribute, flatInsert. destruct mode; simpl.
  - rewrite Array_from_id.
    intros Hraw [= -> ->]%list_elem_of_singleton Hp.
    destruct (flatInsert_from_targets _ _ _ _ _ _ _ Hraw Hp) as (t & Ht & Hlt).
    rewrite Array_from_length in Hlt. eauto.
  - intros (rows1 & H1 & H2)%result_bind_Ok Hg Hp.
    apply elem_of_cons in Hg as [[= -> ->] | [= -> ->]%list_elem_of_singleton].
    + destruct (flatInsert_from_targets _ _ _ _ _ _ _ H1 Hp) as (t & Ht & Hlt).
      rewrite Array_from_length in Hlt. eauto.
    + destruct (flatInsert_from_targets _ _ _ _ _ _ _ H2 Hp) as (t & Ht & Hlt).
      apply flatInsert_from_inv in H1 as ->.
      rewrite length_imap, Array_from_length in Hlt. eauto.
  - intros (rows1 & H1 & H2)%result_bind_Ok Hg Hp.
    apply elem_of_cons in Hg as [[= -> ->] | [= -> ->]%list_elem_of_singleton].
    + destruct (flatInsert_from_targets _ _ _ _ _ _ _ H1 Hp) as (t & Ht & Hlt).
      rewrite Array_from_length in Hlt. eauto.
    + destruct (flatInsert_from_targets _ _ _ _ _ _ _ H2 Hp) as (t & Ht & Hlt).
      apply flatInsert_from_inv in H1 as ->.
      rewrite length_imap, Array_from_length in Hlt. eauto.
Qed.

End target_facts.

(** * The claims *)

(** C1. For every configuration with at least one row and a policy whose
    target rows all exist, regeneration succeeds and yields a grid with
    exactly [rowCount] rows, each of exactly [maxLength raw] slots, where
    [maxLength raw] is the largest length among the raw rows [raw]; final
    row [i] is [padLeft] empty slots, then raw row [i] (members only, in
    their raw order), then [padRight] empty slots, with
    [diff = maxLength - length rawRow], [padLeft = diff / 2] rounded down
    and [padRight = diff - padLeft]. *)
Theorem regenerate_rows_balanced (uuidv4 : nat → string) (st : AppState) :
  1 ≤ rowCount st →
  rows_required (layoutMode st) ≤ rowCount st →
  ∃ raw st',
    distribute (layoutMode st) (rowCount st) (roster uuidv4 (counts st)) = Ok raw
    ∧ generateMembers uuidv4 st = Ok st'
    ∧ length raw = rowCount st
    ∧ (∀ row, row ∈ raw → length row ≤ maxLength raw)
    ∧ (∃ row, row ∈ raw ∧ length row = maxLength raw)
    ∧ length (rows st') = rowCount st
    ∧ (∀ row, row ∈ rows st' → length row = maxLength raw)
    ∧ ∀ i rawRow, raw !! i = Some rawRow →
        let diff := maxLength raw - length rawRow in
        let padLeft := diff / 2 in
        let padRight := diff - padLeft in
        Forall (λ s, ∃ m, s = Occupied m) rawRow
        ∧ rows st' !! i
          = Some (replicate padLeft Null ++ rawRow ++ replicate padRight Null).
Proof.
  intros HR1 HR.
  destruct (distribute_succeeds _ _ (roster uuidv4 (counts st)) HR) as [raw Hraw].
  exists raw, (setRows (balancedRows raw) st).
  destruct (distribute_picks _ _ _ _ Hraw) as [Hlen _].
  split; [done|]. split; [apply generateMembers_Ok; eauto|].
  split; [done|]. split; [apply maxLength_ge|].
  split; [apply maxLength_attained; destruct raw; simpl in *; [lia | done]|].
  split; [simpl; unfold balancedRows; by rewrite length_fmap|].
  split; [apply balancedRows_row_length|].
  intros i rawRow Hi. split.
  - apply Forall_forall. intros s Hs.
    assert (Hin : s ∈ concat raw).
    { apply (elem_of_concat s rawRow); [done|].
      by eapply list_elem_of_lookup_2. }
    rewrite (distribute_concat _ _ _ _ Hraw) in Hin.
    apply list_elem_of_fmap in Hin as (m & -> & _). eauto.
  - simpl. by apply balancedRows_lookup.
Qed.

Lemma regenerate_rows_balanced_witness :
  ∃ st', generateMembers sample_uuid initial_state = Ok st'
         ∧ length (rows st') = 3.
Proof.
  destruct (regenerate_rows_balanced sample_uuid initial_state)
    as (raw & st' & _ & Hgen & _ & _ & _ & Hlen & _).
  - simpl. lia.
  - simpl. lia.
  - exists st'. split; [exact Hgen | exact Hlen].
Defined.

(** C2. Distribution follows the round-robin group rule under every
    policy.  With every target row present the distribution succeeds.
    Whenever it yields raw rows, then for each group of the policy (source
    sequence [src] dealt over the [k] rows [targetRows]): the member at
    position [p] of [src] sits in the group's [(p mod k)]-th row, after the
    [p / k] members of smaller position that went to that row; and the
    [j]-th row of the group holds exactly [src[j], src[j + k],
    src[j + 2k], ...] in that order.  Under [auto] member [i] of
    Soprano ++ Alto ++ Tenor ++ Bass goes to row [i mod rowCount]. *)
Theorem distribution_round_robin (mode : LayoutMode) (R : nat) (r : Roster) :
  (rows_required mode ≤ R → succeeds (distribute mode R r))
  ∧ ∀ raw, distribute mode R r = Ok raw →
      length raw = R
      ∧ (∀ src targetRows, (src, targetRows) ∈ groups mode R r →
           (∀ p m, src !! p = Some m →
              ∃ t row, targetRows !! (p mod length targetRows) = Some t
                       ∧ raw !! t = Some row
                       ∧ row !! (p / length targetRows) = Some (Occupied m))
           ∧ (∀ j t, targetRows !! j = Some t → t < R →
                ∃ row, raw !! t = Some row
                       ∧ row = Occupied <$> round_robin_row (length targetRows) j src
                       ∧ ∀ n, row !! n
                              = Occupied <$> src !! (j + n * length targetRows)))
      ∧ (mode = auto →
           ∀ i m, (soprano r ++ alto r ++ tenor r ++ bass r) !! i = Some m →
             ∃ row, raw !! (i mod R) = Some row
                    ∧ row !! (i / R) = Some (Occupied m)).
Proof.
  split; [apply distribute_succeeds|].
  intros raw Hraw.
  assert (Hrows : ∀ src targetRows j t,
            (src, targetRows) ∈ groups mode R r →
            targetRows !! j = Some t → t < R →
            raw !! t = Some (Occupied <$> round_robin_row (length targetRows) j src)
            ∧ ∀ n, (Occupied <$> round_robin_row (length targetRows) j src) !! n
                   = Occupied <$> src !! (j + n * length targetRows)).
  { intros src targetRows j t Hg Hj Ht. split.
    - by eapply distribute_groups.
    - intros n. rewrite list_lookup_fmap, round_robin_row_lookup; [done|].
      by eapply lookup_lt_Some. }
  assert (Hmembers : ∀ src targetRows p m,
            (src, targetRows) ∈ groups mode R r → src !! p = Some m →
            ∃ t row, targetRows !! (p mod length targetRows) = Some t
                     ∧ t < R ∧ raw !! t = Some row
                     ∧ row !! (p / length targetRows) = Some (Occupied m)).
  { intros src targetRows p m Hg Hp.
    destruct (distribute_targets _ _ _ _ _ _ _ _ Hraw Hg Hp) as (t & Ht & Hlt).
    destruct (Hrows _ _ _ _ Hg Ht Hlt) as [Hrow Hnth].
    exists t, (Occupied <$> round_robin_row (length targetRows)
                              (p mod length targetRows) src).
    do 3 (split; [done|]). rewrite Hnth.
    replace (p mod length targetRows + p / length targetRows * length targetRows)
      with p; [by rewrite Hp|].
    rewrite (Nat.div_mod_eq p (length targetRows)) at 1. lia. }
  split; [by apply distribute_picks in Hraw as [? _]|]. split.
  - intros src targetRows Hg. split.
    + intros p m Hp.
      destruct (Hmembers _ _ _ _ Hg Hp) as (t & row & ? & _ & ? & ?). eauto.
    + intros j t Hj Ht. destruct (Hrows _ _ _ _ Hg Hj Ht) as [Hrow Hnth]. eauto.
  - intros -> i m Hi.
    destruct (Hmembers _ (seq 0 R) i m (list_elem_of_here _ _) Hi)
      as (t & row & Ht & _ & Hrow & Hn).
    rewrite length_seq in Ht, Hn.
    apply lookup_seq in Ht as [-> _]. eauto.
Qed.

Lemma distribution_round_robin_witness :
  ∃ raw row,
    distribute auto 2 (roster sample_uuid (counts_of "2" "2" "0" "0")) = Ok raw
    ∧ raw !! 1 = Some row
    ∧ row = Occupied <$> round_robin_row 2 1
              (all_members (roster sample_uuid (counts_of "2" "2" "0" "0"))).
Proof.
  pose (src := all_members (roster sample_uuid (counts_of "2" "2" "0" "0"))).
  destruct (distribution_round_robin auto 2
              (roster sample_uuid (counts_of "2" "2" "0" "0")))
    as [Hsucc Hrule].
  destruct Hsucc as [raw Hraw].
  - simpl. lia.
  - destruct (Hrule raw Hraw) as (_ & Hgroups & _).
    destruct (Hgroups src (seq 0 2)) as [_ Hrows].
    + simpl. left.
    + destruct (Hrows 1 1) as (row & Hrow & Heq & _).
      * reflexivity.
      * lia.
      * exists raw, row. split; [exact Hraw|]. split; [exact Hrow | exact Heq].
Defined.

(** C3. For every policy and row count with which every target row exists
    (auto with at least 1 row, condition1 with at least 3, condition2 with
    at least 4), regeneration succeeds and the generated grid conserves the
    roster of that build: it has as many occupied slots as the roster has
    members, every occupied slot holds a member of the roster, and no
    member is in two slots.  Every swap of two valid addresses keeps a grid
    that conserves the roster conserving it. *)
Theorem members_conserved (uuidv4 : nat → string) (st : AppState) :
  rows_required (layoutMode st) ≤ rowCount st →
  let members := all_members (roster uuidv4 (counts st)) in
  ∃ st', generateMembers uuidv4 st = Ok st'
    ∧ conserved members (rows st')
    ∧ ∀ st1 fromRow fromIndex toRow toIndex,
        conserved members (rows st1) →
        valid_address (rows st1) fromRow fromIndex →
        valid_address (rows st1) toRow toIndex →
        ∃ st2, moveMember fromRow fromIndex toRow toIndex st1 = Ok st2
               ∧ conserved members (rows st2).
Proof.
  intros HR members.
  destruct (distribute_succeeds _ _ (roster uuidv4 (counts st)) HR) as [raw Hraw].
  exists (setRows (balancedRows raw) st).
  split; [apply generateMembers_Ok; eauto|].
  assert (Hperm : members_of_grid (balancedRows raw) ≡ₚ members).
  { rewrite members_of_balancedRows. unfold members_of_grid.
    rewrite (distribute_concat _ _ _ _ Hraw). by rewrite members_of_occupied. }
  split.
  - simpl. unfold conserved. rewrite Hperm.
    split; [done|]. split; [by intros m; rewrite Hperm|].
    apply roster_NoDup.
  - intros st1 fromRow fromIndex toRow toIndex (Hlen & Hin & Hnd) [x Hx] [y Hy].
    destruct (exchange_valid _ _ _ _ _ _ _ Hx Hy) as (g & Hg & _ & _ & Hconcat).
    exists (setRows g st1). split; [apply moveMember_Ok; eauto|].
    assert (Hsame : members_of_grid g ≡ₚ members_of_grid (rows st1)).
    { unfold members_of_grid. by rewrite Hconcat. }
    simpl. unfold conserved. rewrite Hsame.
    split; [done|]. split; [|done].
    intros m. rewrite Hsame. apply Hin.
Qed.

Lemma members_conserved_witness :
  ∃ st' st2,
    generateMembers sample_uuid initial_state = Ok st'
    ∧ moveMember 0 0 2 9 st' = Ok st2
    ∧ conserved (all_members (roster sample_uuid (counts initial_state)))
        (rows st2).
Proof.
  destruct (members_conserved sample_uuid initial_state)
    as (st' & Hgen & Hcons & Hswap).
  - simpl. lia.
  - destruct (Hswap st' 0 0 2 9 Hcons) as (st2 & Hmove & Hcons2).
    + apply generateMembers_Ok in Hgen as (raw & [= <-] & ->).
      vm_compute. eauto.
    + apply generateMembers_Ok in Hgen as (raw & [= <-] & ->).
      vm_compute. eauto.
    + exists st', st2. split; [exact Hgen|]. split; [exact Hmove | exact Hcons2].
Defined.

(** C4. For every grid and every two valid addresses, Swap succeeds and
    exchanges the contents of the two addressed slots (a member or empty);
    every other slot and every row length stay as they were.  On
    [[S0, A0], [S1, A1]], swapping row 0 slot 0 with row 1 slot 0 yields
    [[S1, A0], [S0, A1]]. *)
Theorem swap_exchanges_two_slots :
  (∀ (st : AppState) fromRow fromIndex toRow toIndex,
     valid_address (rows st) fromRow fromIndex →
     valid_address (rows st) toRow toIndex →
     ∃ st', moveMember fromRow fromIndex toRow toIndex st = Ok st'
       ∧ slot_at (rows st') fromRow fromIndex = slot_at (rows st) toRow toIndex
       ∧ slot_at (rows st') toRow toIndex = slot_at (rows st) fromRow fromIndex
       ∧ (∀ r i, (r, i) ≠ (fromRow, fromIndex) → (r, i) ≠ (toRow, toIndex) →
            slot_at (rows st') r i = slot_at (rows st) r i)
       ∧ length <$> rows st' = length <$> rows st)
  ∧ (∀ (st : AppState) (S0 A0 S1 A1 : Slot),
       rows st = [[S0; A0]; [S1; A1]] →
       ∃ st', moveMember 0 0 1 0 st = Ok st'
              ∧ rows st' = [[S1; A0]; [S0; A1]]).
Proof.
  split.
  - intros st fromRow fromIndex toRow toIndex [x Hx] [y Hy].
    destruct (exchange_valid _ _ _ _ _ _ _ Hx Hy) as (g & Hg & Hlen & Hslot & _).
    exists (setRows g st). split; [apply moveMember_Ok; eauto|]. simpl.
    split; [|split; [|split]].
    + rewrite Hslot, Hy.
      destruct (decide (fromRow = toRow ∧ fromIndex = toIndex)) as [[-> ->]|Hne].
      * congruence.
      * by rewrite decide_True.
    + rewrite Hslot, Hx. by rewrite decide_True.
    + intros r i Hfrom Hto. rewrite Hslot.
      rewrite !decide_False; [done | |]; intros [-> ->]; done.
    + done.
  - intros st S0 A0 S1 A1 Hrows.
    eexists. split; [apply moveMember_Ok; eexists; split; [|done]|].
    + rewrite Hrows. reflexivity.
    + reflexivity.
Qed.

Lemma swap_exchanges_two_slots_witness :
  ∃ st', moveMember 0 0 1 1 sample_state
         = Ok st'
         ∧ slot_at (rows st') 0 0 = Some (Occupied A1)
         ∧ slot_at (rows st') 1 1 = Some (Occupied S0).
Proof.
  destruct swap_exchanges_two_slots as [Hswap _].
  destruct (Hswap sample_state 0 0 1 1) as (st' & Hmove & Hfrom & Hto & _).
  - vm_compute. eauto.
  - vm_compute. eauto.
  - exists st'. split; [exact Hmove|]. split; [exact Hfrom | exact Hto].
Defined.

(** C7. Swap is an involution: for every grid and every two distinct valid
    addresses, swapping them and then swapping them again gives back the
    original grid. *)
Theorem swap_involution (st : AppState) fromRow fromIndex toRow toIndex :
  valid_address (rows st) fromRow fromIndex →
  valid_address (rows st) toRow toIndex →
  (fromRow, fromIndex) ≠ (toRow, toIndex) →
  ∃ st', moveMember fromRow fromIndex toRow toIndex st = Ok st'
         ∧ moveMember fromRow fromIndex toRow toIndex st' = Ok st.
Proof.
  intros [x Hx] [y Hy] Hne.
  destruct (exchange_valid _ _ _ _ _ _ _ Hx Hy) as (g & Hg & Hlen & Hslot & _).
  assert (Hne' : ¬ (fromRow = toRow ∧ fromIndex = toIndex))
    by (intros [-> ->]; done).
  assert (Hx' : slot_at g fromRow fromIndex = Some y).
  { rewrite Hslot. by rewrite decide_False, decide_True. }
  assert (Hy' : slot_at g toRow toIndex = Some x).
  { rewrite Hslot. by rewrite decide_True. }
  destruct (exchange_valid _ _ _ _ _ _ _ Hx' Hy')
    as (g2 & Hg2 & Hlen2 & Hslot2 & _).
  exists (setRows g st). split; [apply moveMember_Ok; eauto|].
  apply moveMember_Ok. exists g2. split; [done|].
  assert (g2 = rows st) as ->.
  { apply grid_ext; [congruence|]. intros r i. rewrite Hslot2, Hslot.
    destruct (decide (r = toRow ∧ i = toIndex)) as [[-> ->]|?]; [done|].
    destruct (decide (r = fromRow ∧ i = fromIndex)) as [[-> ->]|?]; done. }
  by destruct st.
Qed.

Lemma swap_involution_witness :
  ∃ st', moveMember 0 0 1 0 sample_state
         = Ok st'
         ∧ moveMember 0 0 1 0 st'
           = Ok sample_state.
Proof.
  apply (swap_involution sample_state 0 0 1 0).
  - vm_compute. eauto.
  - vm_compute. eauto.
  - discriminate.
Defined.

(** C8. For every grid and every valid address, swapping the address with
    itself succeeds and leaves the grid exactly as it was. *)
Theorem swap_same_address (st : AppState) row index :
  valid_address (rows st) row index →
  moveMember row index row index st = Ok st.
Proof.
  intros [x Hx].
  destruct (exchange_valid _ _ _ _ _ _ _ Hx Hx) as (g & Hg & Hlen & Hslot & _).
  apply moveMember_Ok. exists g. split; [done|].
  assert (g = rows st) as ->.
  { apply grid_ext; [done|]. intros r i. rewrite Hslot.
    destruct (decide (r = row ∧ i = index)) as [[-> ->]|?]; done. }
  by rewrite setRows_rows.
Qed.

Lemma swap_same_address_witness :
  moveMember 1 1 1 1 sample_state
  = Ok sample_state.
Proof.
  apply (swap_same_address sample_state 1 1).
  vm_compute. eauto.
Defined.






(** C5, evaluated on the code.  With condition1 and two rows the
    combination is neither rejected up front nor clamped: with the default
    counts the build dies with a [TypeError] at the first tenor, whose
    target row 2 is missing (clamping would have produced a grid), while
    with no tenor and no bass the same combination goes through without
    any error (so the combination is not rejected). *)
Theorem policy_without_its_rows_unchecked :
  layoutMode condition1_two_rows = condition1
  ∧ rowCount condition1_two_rows = 2
  ∧ generateMembers sample_uuid condition1_two_rows = Throw TypeError
  ∧ ∃ st', generateMembers sample_uuid
             (setCounts Bass "0" (setCounts Tenor "0"
                (setCounts Alto "1" (setCounts Soprano "1"
                   condition1_two_rows)))) = Ok st'
           ∧ rows st'
             = [[Occupied {| id := sample_uuid 0; name := "S0"; part := Soprano |}];
                [Occupied {| id := sample_uuid 1; name := "A0"; part := Alto |}]].
Proof.
  split; [reflexivity|]. split; [reflexivity|].
  split; [by vm_compute|].
  eexists. split; by vm_compute.
Qed.

(** C9. For every natural number [n] given as the count of a category,
    the roster has exactly [n] members of that category, all tagged with
    it, whose labels are, in creation order, the category's initial
    followed by 0, 1, ..., n - 1.  A count is given as text: the property
    holds for every text that [parseInt] reads as [n], and the decimal
    numeral of [n] is such a text. *)
Theorem roster_labels (uuidv4 : nat → string) (counts : Part → string)
    (p : Part) (n : nat) :
  parseInt (pretty n) = Int (Z.of_nat n)
  ∧ (parseInt (counts p) = Int (Z.of_nat n) →
     length (members_of (roster uuidv4 counts) p) = n
     ∧ name <$> members_of (roster uuidv4 counts) p
       = (λ i, initial p +:+ pretty i) <$> seq 0 n
     ∧ Forall (λ m, part m = p) (members_of (roster uuidv4 counts) p)).
Proof.
  split; [apply parseInt_pretty|].
  intros Hn. destruct (roster_members_of uuidv4 counts p) as [calls ->].
  assert (Hlen : ToLength (or_default (parseInt (counts p)) 0) = n).
  { rewrite Hn, or_default_nonneg. unfold ToLength. lia. }
  split; [|split].
  - by rewrite category_length.
  - by rewrite category_names, Hlen.
  - apply Forall_forall. intros m. apply category_part.
Qed.

Lemma roster_labels_witness :
  name <$> members_of (roster sample_uuid (counts_of "2" "3" "0" "0")) Alto
  = ["A0"; "A1"; "A2"].
Proof.
  destruct (roster_labels sample_uuid (counts_of "2" "3" "0" "0") Alto 3)
    as [_ Hroster].
  destruct Hroster as (_ & Hnames & _).
  - reflexivity.
  - exact Hnames.
Defined.

(** C10, evaluated on the code.  Regeneration does not always succeed:
    in the initial configuration (counts 9, 10, 5 and 5, three rows),
    choosing condition2 and regenerating ends in a [TypeError] at the
    first tenor, whose target row 3 is missing; no grid is set. *)
Theorem regenerate_fails_on_initial_counts (uuidv4 : nat → string) :
  layoutMode condition2_default_rows = condition2
  ∧ rowCount condition2_default_rows = 3
  ∧ (∀ p, counts condition2_default_rows p = initial_counts p)
  ∧ generateMembers uuidv4 condition2_default_rows = Throw TypeError.
Proof.
  split; [reflexivity|]. split; [reflexivity|]. split; [reflexivity|].
  destruct (generateMembers uuidv4 condition2_default_rows) as [st'|[]] eqn:Hgen;
    [|done].
  apply generateMembers_Ok in Hgen as (raw & Hraw & _).
  destruct (distribute_targets condition2 3
              (roster uuidv4 initial_counts) raw
              (tenor (roster uuidv4 initial_counts)
               ++ bass (roster uuidv4 initial_counts)) [3] 0
              {| id := uuidv4 19; name := "T0"; part := Tenor |} Hraw)
    as (t & Ht & Hlt).
  - apply list_elem_of_further, list_elem_of_here.
  - reflexivity.
  - injection Ht as <-. lia.
Qed.

(** * Further properties of the component *)

(** ** Numbers as they are stored *)

Section double_facts.
Implicit Types (z d : Z) (s : string).

(** Integers up to 2^53 in size are doubles as they are. *)
Lemma to_double_exact z :
  (Z.abs z ≤ 9007199254740992)%Z → to_double z = Finite z.
Proof.
  intros Hz. unfold to_double.
  by destruct (Z.leb_spec (Z.abs z) 9007199254740992); [|lia].
Qed.

Lemma parseInt_or_exact s d :
  (Z.abs (or_default (parseInt s) d) ≤ 9007199254740992)%Z →
  parseInt_or s d = Finite (or_default (parseInt s) d).
Proof.
  unfold parseInt_or, or_default.
  destruct (parseInt s) as [|[|z|z]]; try done; apply to_double_exact.
Qed.

Lemma to_double_max_pos z : 1 ≤ as_length (Math_max_1 (to_double z)).
Proof.
  assert (Hinf : 1 ≤ Z.to_nat (2 ^ 1024)).
  { pose proof (Z.pow_pos_nonneg 2 1024). lia. }
  unfold to_double.
  repeat match goal with |- context [if ?b then _ else _] => destruct b end;
    unfold Math_max_1, as_length; lia.
Qed.

Lemma setRowCount_pos s (st : AppState) : 1 ≤ rowCount (setRowCount s st).
Proof.
  unfold setRowCount, parseInt_or; simpl.
  destruct (parseInt s) as [|[|z|z]]; try (simpl; lia); apply to_double_max_pos.
Qed.
End double_facts.

(** ** What is on screen *)

Section render_facts.
Implicit Types (g : Grid) (row : list Slot) (r i : nat) (s : Slot).

Lemma elem_of_concat_iff {A} (x : A) (ls : list (list A)) :
  x ∈ concat ls ↔ ∃ l, l ∈ ls ∧ x ∈ l.
Proof.
  rewrite list_elem_of_In, in_concat. split.
  - intros (l & Hl & Hx). exists l. by rewrite !list_elem_of_In.
  - intros (l & Hl & Hx). exists l. by rewrite <- !list_elem_of_In.
Qed.

Lemma maxRowLength_ge g row : row ∈ g → length row ≤ maxRowLength g.
Proof.
  intros Hrow. apply max_list_elem_of_le, elem_of_app. left.
  by apply list_elem_of_fmap_2.
Qed.

Lemma maxRowLength_pos g : 1 ≤ maxRowLength g.
Proof. apply max_list_elem_of_le, elem_of_app. right. apply list_elem_of_here. Qed.

(** On a grid of rows of one length, with at least one column, the width
    the rows are laid out against is that length. *)
Lemma maxRowLength_rectangular g row :
  rectangular g → row ∈ g → 1 ≤ length row → maxRowLength g = length row.
Proof.
  intros Hrect Hrow Hpos. apply Nat.le_antisymm; [|by apply maxRowLength_ge].
  assert (Hin : maxRowLength g ∈ (length <$> g) ++ [1]).
  { apply max_list_elem_of. by destruct (length <$> g). }
  apply elem_of_app in Hin as [Hin|Hin].
  - apply list_elem_of_fmap in Hin as (row' & -> & Hrow').
    by rewrite (Hrect row' row).
  - apply list_elem_of_singleton in Hin. lia.
Qed.

Lemma rendered_slots_slot_at g r i s :
  (r, i, s) ∈ rendered_slots g ↔ slot_at g r i = Some s.
Proof.
  unfold rendered_slots. rewrite elem_of_concat_iff, slot_at_Some. split.
  - intros (l & (r' & row & -> & Hrow)%elem_of_lookup_imap & Hin).
    unfold Row_slots in Hin.
    apply elem_of_lookup_imap in Hin as (i' & s' & [= -> -> ->] & Hi).
    exists row. split; [done|].
    rewrite take_ge in Hi; [done|].
    apply maxRowLength_ge. by eapply list_elem_of_lookup_2.
  - intros (row & Hrow & Hi).
    exists (Row_slots r row (maxRowLength g)). split.
    + apply elem_of_lookup_imap. eauto.
    + unfold Row_slots. apply elem_of_lookup_imap. exists i, s. split; [done|].
      rewrite take_ge; [done|].
      apply maxRowLength_ge. by eapply list_elem_of_lookup_2.
Qed.

Lemma rendered_address_valid g r i :
  rendered_address g r i ↔ valid_address g r i.
Proof.
  unfold rendered_address, valid_address, is_Some.
  by setoid_rewrite rendered_slots_slot_at.
Qed.
End render_facts.

(** X1. On a grid typed [(Member | null)[][]], the slots on screen are
    exactly the slots of the grid, each under its own address: the cut at
    [maxCount] hides nothing, and the addresses a drop can carry are the
    valid ones. *)
Theorem every_slot_is_rendered (g : Grid) (row index : nat) (member : Slot) :
  well_typed g →
  ((row, index, member) ∈ rendered_slots g ↔ slot_at g row index = Some member)
  ∧ (rendered_address g row index ↔ valid_address g row index).
Proof.
  intros _. split.
  - apply rendered_slots_slot_at.
  - apply rendered_address_valid.
Qed.

Lemma every_slot_is_rendered_witness :
  (1, 0, Occupied S1) ∈ rendered_slots sample_grid
  ↔ slot_at sample_grid 1 0 = Some (Occupied S1).
Proof.
  apply (every_slot_is_rendered sample_grid 1 0 (Occupied S1)).
  intros row Hrow Hin.
  repeat (apply elem_of_cons in Hrow as [->|Hrow];
          [repeat (apply elem_of_cons in Hin as [Hin|Hin]; [discriminate Hin|]);
           by apply elem_of_nil in Hin|]).
  by apply elem_of_nil in Hrow.
Defined.

(** X2. The left margin of a row on screen is half a member width (55) for
    each slot the row is short of the widest row, plus 55 when the row
    index is odd; the clamp at 0 never acts.  On a grid of rows of one
    length with at least one column the margin is therefore 0 for
    even rows and 55 for odd rows. *)
Theorem left_margin_staggers_rows (g : Grid) (rowIndex : nat) (members : list Slot) :
  g !! rowIndex = Some members →
  leftMargin rowIndex members (maxRowLength g)
  = (55 * Z.of_nat (maxRowLength g - length members)
     + 55 * Z.of_nat (rowIndex mod 2))%Z
  ∧ (rectangular g → 1 ≤ length members →
     leftMargin rowIndex members (maxRowLength g)
     = if decide (rowIndex mod 2 = 0) then 0%Z else 55%Z).
Proof.
  intros Hrow.
  assert (Hin : members ∈ g) by (by eapply list_elem_of_lookup_2).
  assert (Hle : length members ≤ maxRowLength g) by (by apply maxRowLength_ge).
  assert (Hmargin : leftMargin rowIndex members (maxRowLength g)
                    = (55 * Z.of_nat (maxRowLength g - length members)
                       + 55 * Z.of_nat (rowIndex mod 2))%Z).
  { unfold leftMargin, memberWidth.
    replace (Z.of_nat (maxRowLength g) * 110 - Z.of_nat (length members) * 110)%Z
      with (55 * Z.of_nat (maxRowLength g - length members) * 2)%Z by lia.
    rewrite Z.div_mul by done.
    change (110 / 2)%Z with 55%Z. lia. }
  split; [done|].
  intros Hrect Hpos. rewrite Hmargin.
  rewrite (maxRowLength_rectangular g members) by done.
  assert (Hmod : rowIndex mod 2 < 2) by (apply Nat.mod_upper_bound; lia).
  destruct (decide (rowIndex mod 2 = 0)) as [->|Hodd]; lia.
Qed.

Lemma left_margin_staggers_rows_witness :
  leftMargin 1 [Occupied S1; Occupied A1] (maxRowLength sample_grid) = 55%Z.
Proof.
  destruct (left_margin_staggers_rows sample_grid 1 [Occupied S1; Occupied A1])
    as [_ Hrect].
  - reflexivity.
  - apply Hrect.
    + intros row1 row2 H1 H2.
      repeat (apply elem_of_cons in H1 as [->|H1]);
        repeat (apply elem_of_cons in H2 as [->|H2]);
        try reflexivity; by apply elem_of_nil in H1 || by apply elem_of_nil in H2.
    + simpl. lia.
Defined.

(** X3. When every count is read as a number below 2^32 in size, the
    total shown beside the counts is the exact sum of the numbers read; it
    never exceeds the number of members a build creates, and the two agree
    exactly when no count is read as a negative number: a negative count
    lowers the total shown but contributes no member. *)
Theorem displayed_total_and_roster_size (uuidv4 : nat → string)
    (counts : Part → string) :
  (∀ p, (Z.abs (or_default (parseInt (counts p)) 0) < 4294967296)%Z) →
  ∃ total,
    total_count counts = Finite total
    ∧ (total ≤ Z.of_nat (length (all_members (roster uuidv4 counts))))%Z
    ∧ (total = Z.of_nat (length (all_members (roster uuidv4 counts)))
       ↔ ∀ p, (0 ≤ or_default (parseInt (counts p)) 0)%Z).
Proof.
  intros Hsmall.
  pose proof (Hsmall Soprano) as HS. pose proof (Hsmall Alto) as HA.
  pose proof (Hsmall Tenor) as HT. pose proof (Hsmall Bass) as HB.
  exists (or_default (parseInt (counts Soprano)) 0
          + or_default (parseInt (counts Alto)) 0
          + or_default (parseInt (counts Tenor)) 0
          + or_default (parseInt (counts Bass)) 0)%Z.
  split; [|split].
  - unfold total_count. simpl.
    rewrite !parseInt_or_exact by lia. simpl.
    rewrite (to_double_exact (0 + _)) by lia. simpl.
    rewrite to_double_exact by lia. simpl.
    rewrite to_double_exact by lia. simpl.
    rewrite to_double_exact by lia. done.
  - unfold all_members, roster. simpl. rewrite !length_app, !category_length.
    unfold ToLength. lia.
  - unfold all_members, roster. simpl. rewrite !length_app, !category_length.
    unfold ToLength. split.
    + intros Heq p. destruct p; lia.
    + intros Hall.
      pose proof (Hall Soprano). pose proof (Hall Alto).
      pose proof (Hall Tenor). pose proof (Hall Bass). lia.
Qed.

Lemma displayed_total_and_roster_size_witness :
  total_count (counts_of "2" "-3" "0" "4") = Finite 3.
Proof.
  destruct (displayed_total_and_roster_size sample_uuid (counts_of "2" "-3" "0" "4"))
    as (total & Htotal & _ & _).
  - intros p. destruct p; vm_compute; reflexivity.
  - rewrite Htotal. vm_compute in Htotal. exact (eq_sym Htotal).
Defined.

(** X4. The background of a slot tells what it holds: two slots have the
    same colour exactly when both are empty or both hold a member of the
    same part. *)
Theorem background_tells_part (s1 s2 : Slot) :
  backgroundColor s1 = backgroundColor s2
  ↔ part <$> slot_member s1 = part <$> slot_member s2.
Proof.
  destruct s1 as [[? ? []]| |], s2 as [[? ? []]| |]; simpl; split;
    (done || discriminate).
Qed.

(** X5. Typing the decimal numeral of [n], for [n] up to 2^53, as row
    count stores [n], except that 0 is stored as 1. *)
Theorem row_count_reads_numeral (n : nat) (st : AppState) :
  (Z.of_nat n ≤ 9007199254740992)%Z →
  rowCount (setRowCount (pretty n) st) = n `max` 1.
Proof.
  intros Hn. unfold setRowCount, parseInt_or. simpl.
  rewrite parseInt_pretty. destruct n as [|n]; [done|].
  change (Z.of_nat (S n)) with (Z.pos (Pos.of_succ_nat n)) in *.
  rewrite to_double_exact by lia. simpl. lia.
Qed.

Lemma row_count_reads_numeral_witness :
  rowCount (setRowCount "12" initial_state) = 12.
Proof. apply (row_count_reads_numeral 12 initial_state). simpl. lia. Defined.

(** ** More on the exchange of two slots *)

Section swap_algebra.
Implicit Types (g : Grid) (st : AppState) (r i : nat) (x y : Slot).

Lemma exchange_same_address g r i x :
  slot_at g r i = Some x → exchange r i r i g = Ok g.
Proof.
  intros Hx.
  destruct (exchange_valid _ _ _ _ _ _ _ Hx Hx) as (g' & -> & Hlen & Hslot & _).
  f_equal. apply grid_ext; [done|]. intros r' i'. rewrite Hslot.
  destruct (decide (r' = r ∧ i' = i)) as [[-> ->]|?]; done.
Qed.

Lemma exchange_symmetric g r1 i1 r2 i2 x y :
  slot_at g r1 i1 = Some x → slot_at g r2 i2 = Some y →
  exchange r1 i1 r2 i2 g = exchange r2 i2 r1 i1 g.
Proof.
  intros Hx Hy.
  destruct (exchange_valid _ _ _ _ _ _ _ Hx Hy) as (g1 & -> & Hlen1 & Hslot1 & _).
  destruct (exchange_valid _ _ _ _ _ _ _ Hy Hx) as (g2 & -> & Hlen2 & Hslot2 & _).
  f_equal. apply grid_ext; [congruence|]. intros r i.
  rewrite Hslot1, Hslot2.
  destruct (decide (r = r2 ∧ i = i2)) as [[-> ->]|?].
  - destruct (decide (r2 = r1 ∧ i2 = i1)) as [[-> ->]|?]; congruence.
  - done.
Qed.

Lemma exchange_commute g r1 i1 r2 i2 r3 i3 r4 i4 :
  valid_address g r1 i1 → valid_address g r2 i2 →
  valid_address g r3 i3 → valid_address g r4 i4 →
  (r3, i3) ≠ (r1, i1) → (r3, i3) ≠ (r2, i2) →
  (r4, i4) ≠ (r1, i1) → (r4, i4) ≠ (r2, i2) →
  exchange r1 i1 r2 i2 g ≫= exchange r3 i3 r4 i4
  = exchange r3 i3 r4 i4 g ≫= exchange r1 i1 r2 i2.
Proof.
  intros [x1 H1] [x2 H2] [x3 H3] [x4 H4] N31 N32 N41 N42.
  assert (D31 : ¬ (r3 = r1 ∧ i3 = i1)) by (intros [-> ->]; done).
  assert (D32 : ¬ (r3 = r2 ∧ i3 = i2)) by (intros [-> ->]; done).
  assert (D41 : ¬ (r4 = r1 ∧ i4 = i1)) by (intros [-> ->]; done).
  assert (D42 : ¬ (r4 = r2 ∧ i4 = i2)) by (intros [-> ->]; done).
  assert (D13 : ¬ (r1 = r3 ∧ i1 = i3)) by (intros [-> ->]; done).
  assert (D23 : ¬ (r2 = r3 ∧ i2 = i3)) by (intros [-> ->]; done).
  assert (D14 : ¬ (r1 = r4 ∧ i1 = i4)) by (intros [-> ->]; done).
  assert (D24 : ¬ (r2 = r4 ∧ i2 = i4)) by (intros [-> ->]; done).
  destruct (exchange_valid _ _ _ _ _ _ _ H1 H2) as (ga & -> & Hlena & Hslota & _).
  destruct (exchange_valid _ _ _ _ _ _ _ H3 H4) as (gb & -> & Hlenb & Hslotb & _).
  simpl.
  assert (H3a : slot_at ga r3 i3 = Some x3).
  { rewrite Hslota. by rewrite !decide_False. }
  assert (H4a : slot_at ga r4 i4 = Some x4).
  { rewrite Hslota. by rewrite !decide_False. }
  assert (H1b : slot_at gb r1 i1 = Some x1).
  { rewrite Hslotb. by rewrite !decide_False. }
  assert (H2b : slot_at gb r2 i2 = Some x2).
  { rewrite Hslotb. by rewrite !decide_False. }
  destruct (exchange_valid _ _ _ _ _ _ _ H3a H4a) as (gab & -> & Hlenab & Hslotab & _).
  destruct (exchange_valid _ _ _ _ _ _ _ H1b H2b) as (gba & -> & Hlenba & Hslotba & _).
  f_equal. apply grid_ext; [congruence|]. intros r i.
  rewrite Hslotab, Hslotba, Hslota, Hslotb.
  destruct (decide (r = r4 ∧ i = i4)) as [[-> ->]|?].
  { by rewrite !decide_False. }
  destruct (decide (r = r3 ∧ i = i3)) as [[-> ->]|?].
  { by rewrite !decide_False. }
  done.
Qed.

End swap_algebra.

Lemma moveMember_twice r1 i1 r2 i2 r3 i3 r4 i4 (st : AppState) :
  moveMember r1 i1 r2 i2 st ≫= moveMember r3 i3 r4 i4
  = g ← exchange r1 i1 r2 i2 (rows st) ≫= exchange r3 i3 r4 i4;
    mret (setRows g st).
Proof.
  unfold moveMember.
  destruct (exchange r1 i1 r2 i2 (rows st)) as [g1|e]; simpl; [|done].
  by destruct (exchange r3 i3 r4 i4 g1).
Qed.

(** X6. Swap is symmetric: for two valid addresses it does not matter
    which of the two slots was dragged and which was the target. *)
Theorem swap_symmetric (st : AppState) fromRow fromIndex toRow toIndex :
  valid_address (rows st) fromRow fromIndex →
  valid_address (rows st) toRow toIndex →
  moveMember fromRow fromIndex toRow toIndex st
  = moveMember toRow toIndex fromRow fromIndex st.
Proof.
  intros [x Hx] [y Hy]. unfold moveMember.
  by rewrite (exchange_symmetric _ _ _ _ _ _ _ Hx Hy).
Qed.

Lemma swap_symmetric_witness :
  moveMember 0 1 1 0 sample_state = moveMember 1 0 0 1 sample_state.
Proof.
  apply (swap_symmetric sample_state 0 1 1 0).
  - vm_compute. eauto.
  - vm_compute. eauto.
Defined.

(** X7. Swaps of disjoint pairs of slots commute: when the two addresses
    of one swap differ from the two addresses of another, and all four are
    valid, the two swaps give the same grid in either order. *)
Theorem disjoint_swaps_commute (st : AppState) r1 i1 r2 i2 r3 i3 r4 i4 :
  valid_address (rows st) r1 i1 → valid_address (rows st) r2 i2 →
  valid_address (rows st) r3 i3 → valid_address (rows st) r4 i4 →
  (r3, i3) ≠ (r1, i1) → (r3, i3) ≠ (r2, i2) →
  (r4, i4) ≠ (r1, i1) → (r4, i4) ≠ (r2, i2) →
  moveMember r1 i1 r2 i2 st ≫= moveMember r3 i3 r4 i4
  = moveMember r3 i3 r4 i4 st ≫= moveMember r1 i1 r2 i2.
Proof.
  intros V1 V2 V3 V4 N31 N32 N41 N42.
  rewrite !moveMember_twice.
  by rewrite (exchange_commute (rows st) r1 i1 r2 i2 r3 i3 r4 i4).
Qed.

Lemma disjoint_swaps_commute_witness :
  moveMember 0 0 1 1 sample_state ≫= moveMember 0 1 1 0
  = moveMember 0 1 1 0 sample_state ≫= moveMember 0 0 1 1.
Proof.
  apply (disjoint_swaps_commute sample_state 0 0 1 1 0 1 1 0);
    first [ vm_compute; eauto; fail | discriminate ].
Defined.

(** X8. The test in the drop handler changes nothing on the grid: for a
    dragged slot and a target slot that both exist, dropping has the effect
    of the swap, and dropping a slot on itself leaves the state as it
    was. *)
Theorem drop_is_swap (st : AppState) (item : DragItem.t) (row index : nat) :
  valid_address (rows st) (DragItem.row item) (DragItem.index item) →
  valid_address (rows st) row index →
  DraggableMember.drop item row index st
  = moveMember (DragItem.row item) (DragItem.index item) row index st
  ∧ ((DragItem.row item, DragItem.index item) = (row, index) →
     DraggableMember.drop item row index st = Ok st).
Proof.
  intros [x Hx] _. unfold DraggableMember.drop.
  destruct (decide (DragItem.row item ≠ row ∨ DragItem.index item ≠ index))
    as [Hne|Heq].
  - split; [done|]. intros [= Hr Hi]. destruct Hne; done.
  - assert (DragItem.row item = row) as <-
      by (destruct (decide (DragItem.row item = row)); tauto).
    assert (DragItem.index item = index) as <-
      by (destruct (decide (DragItem.index item = index)); tauto).
    split; [|done].
    unfold moveMember. rewrite (exchange_same_address _ _ _ _ Hx). simpl.
    by rewrite setRows_rows.
Qed.

Lemma drop_is_swap_witness :
  DraggableMember.drop (DragItem.mk 0 1) 1 0 sample_state = Ok sample_state.
Proof.
  destruct (drop_is_swap sample_state (DragItem.mk 0 1) 1 0) as [_ Hsame].
  - vm_compute. eauto.
  - vm_compute. eauto.
  - apply Hsame. reflexivity.
Defined.

(** ** What every reachable state satisfies *)

Section invariant_facts.
Implicit Types (g raw : Grid) (st : AppState) (row : list Slot).

Lemma rectangular_lengths g g' :
  length <$> g' = length <$> g → rectangular g → rectangular g'.
Proof.
  intros Hlen Hrect row1 row2 H1 H2.
  apply (list_elem_of_fmap_2 length) in H1, H2. rewrite Hlen in H1, H2.
  apply list_elem_of_fmap in H1 as (row1' & -> & H1).
  apply list_elem_of_fmap in H2 as (row2' & -> & H2).
  by apply Hrect.
Qed.

Lemma well_typed_concat g : well_typed g ↔ Undefined ∉ concat g.
Proof.
  unfold well_typed. rewrite elem_of_concat_iff. split.
  - intros Hwt (row & Hrow & Hin). by apply (Hwt row).
  - intros Hno row Hrow Hin. apply Hno. eauto.
Qed.

Lemma elem_of_balance_row M row x :
  x ∈ balance_row M row → x = Null ∨ x ∈ row.
Proof.
  unfold balance_row. rewrite !Array_from_const, !elem_of_app.
  intros [Hin|[Hin|Hin]].
  - left. by apply elem_of_replicate in Hin as [-> _].
  - right. apply elem_of_take in Hin as (i & Hi & _).
    by eapply list_elem_of_lookup_2.
  - left. by apply elem_of_replicate in Hin as [-> _].
Qed.

(** Whatever the configuration, a build that goes through yields a grid
    of rows of one length, without [undefined], holding no member
    twice. *)
Lemma generateMembers_sound uuidv4 st st' :
  1 ≤ rowCount st → generateMembers uuidv4 st = Ok st' → sound st'.
Proof.
  intros HR (raw & Hraw & ->)%generateMembers_Ok. unfold sound. simpl.
  split; [done|]. split; [|split].
  - intros row1 row2 H1 H2.
    by rewrite (balancedRows_row_length _ _ H1), (balancedRows_row_length _ _ H2).
  - intros row Hrow Hin. unfold balancedRows in Hrow.
    apply list_elem_of_fmap in Hrow as (row0 & -> & Hrow0).
    apply elem_of_balance_row in Hin as [?|Hin]; [done|].
    assert (Hc : Undefined ∈ concat raw) by (by eapply elem_of_concat).
    rewrite (distribute_concat _ _ _ _ Hraw) in Hc.
    by apply list_elem_of_fmap in Hc as (m & ? & _).
  - rewrite members_of_balancedRows. unfold members_of_grid.
    rewrite (distribute_concat _ _ _ _ Hraw), members_of_occupied.
    apply roster_NoDup.
Qed.

Lemma moveMember_sound st st' fromRow fromIndex toRow toIndex :
  valid_address (rows st) fromRow fromIndex →
  valid_address (rows st) toRow toIndex →
  moveMember fromRow fromIndex toRow toIndex st = Ok st' →
  sound st → sound st'.
Proof.
  intros [x Hx] [y Hy] (g & Hg & ->)%moveMember_Ok (HR & Hrect & Hwt & Hnd).
  destruct (exchange_valid _ _ _ _ _ _ _ Hx Hy) as (g' & Hg' & Hlen & _ & Hperm).
  assert (g' = g) as -> by congruence.
  unfold sound. simpl. split; [done|]. split; [|split].
  - by eapply rectangular_lengths.
  - apply well_typed_concat. rewrite Hperm. by apply well_typed_concat.
  - unfold members_of_grid. by rewrite Hperm.
Qed.

Lemma reachable_sound st : reachable st → sound st.
Proof.
  induction 1 as [|st ev st' _ IH Hen Hev].
  - unfold sound. simpl. split; [lia|]. split; [|split].
    + by intros row1 row2 ?%elem_of_nil.
    + by intros row ?%elem_of_nil.
    + constructor.
  - destruct ev as [p value|value|mode|uuidv4|item row index]; simpl in *;
      unfold mret, result_ret in Hev.
    + injection Hev as <-. done.
    + injection Hev as <-. destruct IH as [_ Hrest].
      split; [apply setRowCount_pos | exact Hrest].
    + injection Hev as <-. done.
    + eapply generateMembers_sound; [|done]. apply IH.
    + destruct Hen as [Hfrom%rendered_address_valid Hto%rendered_address_valid].
      unfold DraggableMember.drop in Hev.
      destruct (decide (DragItem.row item ≠ row ∨ DragItem.index item ≠ index)).
      * exact (moveMember_sound _ _ _ _ _ _ Hfrom Hto Hev IH).
      * unfold mret, result_ret in Hev. by injection Hev as <-.
Qed.
End invariant_facts.

(** X9. Whatever the user does (edit counts, row count or policy,
    regenerate, drop a slot on screen onto a slot on screen), the state
    keeps a row count of at least 1 and a grid whose rows all have the same
    length, in which no slot is [undefined] and no member sits in two
    slots. *)
Theorem reachable_states_are_sound (st : AppState) :
  reachable st →
  1 ≤ rowCount st
  ∧ (∀ row1 row2, row1 ∈ rows st → row2 ∈ rows st → length row1 = length row2)
  ∧ (∀ row, row ∈ rows st → Undefined ∉ row)
  ∧ NoDup (members_of_grid (rows st)).
Proof.
  intros Hreach.
  destruct (reachable_sound st Hreach) as (Hcount & Hrect & Htyped & Hnodup).
  split; [exact Hcount|]. split; [exact Hrect|].
  split; [exact Htyped | exact Hnodup].
Qed.

Lemma reachable_states_are_sound_witness :
  ∃ st1 st2,
    handle (RegenerateClick sample_uuid) initial_state = Ok st1
    ∧ handle (Drop (DragItem.mk 0 0) 2 9) st1 = Ok st2
    ∧ NoDup (members_of_grid (rows st2)).
Proof.
  eexists _, _. split; [by vm_compute|]. split; [by vm_compute|].
  apply (reachable_states_are_sound _).
  eapply (reachable_step _ (Drop (DragItem.mk 0 0) 2 9)).
  - apply (reachable_step initial_state (RegenerateClick sample_uuid));
      [apply reachable_initial | exact I | by vm_compute].
  - split; apply rendered_address_valid; vm_compute; eauto.
  - by vm_compute.
Defined.

(** X10. From any reachable state, a drop between two slots on screen
    never fails: the handler returns a new state. *)
Theorem reachable_drops_do_not_fail (st : AppState) (item : DragItem.t)
    (row index : nat) :
  reachable st →
  enabled (Drop item row index) st →
  succeeds (handle (Drop item row index) st).
Proof.
  intros _ [[x Hx]%rendered_address_valid [y Hy]%rendered_address_valid].
  simpl. unfold DraggableMember.drop.
  destruct (decide (DragItem.row item ≠ row ∨ DragItem.index item ≠ index));
    [|by eexists].
  destruct (exchange_valid _ _ _ _ _ _ _ Hx Hy) as (g & Hg & _).
  exists (setRows g st). apply moveMember_Ok. eauto.
Qed.

Lemma reachable_drops_do_not_fail_witness :
  ∃ st1, handle (RegenerateClick sample_uuid) initial_state = Ok st1
         ∧ succeeds (handle (Drop (DragItem.mk 0 0) 2 9) st1).
Proof.
  eexists. split; [by vm_compute|].
  apply reachable_drops_do_not_fail.
  - apply (reachable_step initial_state (RegenerateClick sample_uuid));
      [apply reachable_initial | exact I | by vm_compute].
  - split; apply rendered_address_valid; vm_compute; eauto.
Defined.

(** ** When a build fails *)

Section failure_facts.
Implicit Types (members : list Member) (targetRows : list nat) (newRows : Grid).

Lemma flatInsert_from_throws i members targetRows newRows :
  flatInsert_from i members targetRows newRows = Throw TypeError →
  ∃ q m, members !! q = Some m
         ∧ ∀ t, targetRows !! ((i + q) mod length targetRows) = Some t →
                length newRows ≤ t.
Proof.
  revert i newRows.
  induction members as [|m0 members IH]; intros i newRows; simpl; [done|].
  unfold push_row.
  destruct (targetRows !! (i mod length targetRows)) as [t|] eqn:Ht.
  - destruct (newRows !! t) as [row|] eqn:Hrow; simpl.
    + intros (q & m & Hq & Hmiss)%IH. exists (S q), m. split; [done|].
      intros t'. replace (i + S q) with (S i + q) by lia.
      rewrite length_insert in Hmiss. apply Hmiss.
    + intros _. exists 0, m0. split; [done|].
      intros t'. rewrite Nat.add_0_r, Ht. intros [= <-].
      by apply lookup_ge_None.
  - intros _. exists 0, m0. split; [done|].
    intros t'. by rewrite Nat.add_0_r, Ht.
Qed.

Lemma distribute_throws mode R r :
  distribute mode R r = Throw TypeError →
  ∃ src targetRows p m,
    (src, targetRows) ∈ groups mode R r ∧ src !! p = Some m
    ∧ ∀ t, targetRows !! (p mod length targetRows) = Some t → R ≤ t.
Proof.
  unfold distribute, flatInsert. destruct mode; simpl.
  - rewrite Array_from_id.
    intros (p & m & Hp & Hmiss)%flatInsert_from_throws.
    rewrite Array_from_length in Hmiss.
    eexists _, _, p, m. split; [apply list_elem_of_here | done].
  - destruct (flatInsert_from 0 (soprano r ++ alto r) [0; 1]
                (Array_from R (λ _, []))) as [rows1|[]] eqn:H1; simpl.
    + intros (p & m & Hp & Hmiss)%flatInsert_from_throws.
      apply flatInsert_from_inv in H1 as ->.
      rewrite length_imap, Array_from_length in Hmiss.
      eexists _, _, p, m.
      split; [apply list_elem_of_further, list_elem_of_here | done].
    + intros _. apply flatInsert_from_throws in H1 as (p & m & Hp & Hmiss).
      rewrite Array_from_length in Hmiss.
      eexists _, _, p, m. split; [apply list_elem_of_here | done].
  - destruct (flatInsert_from 0 (soprano r ++ alto r) [0; 1; 2]
                (Array_from R (λ _, []))) as [rows1|[]] eqn:H1; simpl.
    + intros (p & m & Hp & Hmiss)%flatInsert_from_throws.
      apply flatInsert_from_inv in H1 as ->.
      rewrite length_imap, Array_from_length in Hmiss.
      eexists _, _, p, m.
      split; [apply list_elem_of_further, list_elem_of_here | done].
    + intros _. apply flatInsert_from_throws in H1 as (p & m & Hp & Hmiss).
      rewrite Array_from_length in Hmiss.
      eexists _, _, p, m. split; [apply list_elem_of_here | done].
Qed.

(** The build fails exactly when the target row of some member is
    missing. *)
Lemma distribute_throws_iff mode R r :
  distribute mode R r = Throw TypeError ↔
  ∃ src targetRows p m,
    (src, targetRows) ∈ groups mode R r ∧ src !! p = Some m
    ∧ ∀ t, targetRows !! (p mod length targetRows) = Some t → R ≤ t.
Proof.
  split; [apply distribute_throws|].
  intros (src & targetRows & p & m & Hg & Hp & Hmiss).
  destruct (distribute mode R r) as [raw|[]] eqn:Hraw; [|done].
  destruct (distribute_targets _ _ _ _ _ _ _ _ Hraw Hg Hp) as (t & Ht & Hlt).
  apply Hmiss in Ht. lia.
Qed.

Lemma generateMembers_throws uuidv4 (st : AppState) :
  generateMembers uuidv4 st = Throw TypeError ↔
  distribute (layoutMode st) (rowCount st) (roster uuidv4 (counts st))
  = Throw TypeError.
Proof.
  unfold generateMembers, generate.
  by destruct (distribute _ _ _) as [raw|[]].
Qed.
End failure_facts.

(** X11. Regeneration fails, with a [TypeError] and no new grid, exactly
    when the row some member is dealt to does not exist: there is a group
    of the policy and a position [p] in its source sequence such that the
    group's [(p mod k)]-th target row is not among the [rowCount] rows. *)
Theorem regenerate_fails_iff_target_missing (uuidv4 : nat → string)
    (st : AppState) :
  generateMembers uuidv4 st = Throw TypeError ↔
  ∃ src targetRows p m,
    (src, targetRows)
      ∈ groups (layoutMode st) (rowCount st) (roster uuidv4 (counts st))
    ∧ src !! p = Some m
    ∧ ∀ t, targetRows !! (p mod length targetRows) = Some t → rowCount st ≤ t.
Proof.
  split.
  - intros Hthrow. apply generateMembers_throws in Hthrow.
    by apply distribute_throws.
  - intros Hmissing. apply generateMembers_throws.
    by apply distribute_throws_iff.
Qed.

Lemma distribute_throws_too_few_rows (mode : LayoutMode) (R : nat) (r : Roster) :
  distribute mode R r = Throw TypeError ↔
  match mode with
  | auto => R = 0 ∧ 1 ≤ length (soprano r ++ alto r) + length (tenor r ++ bass r)
  | condition1 =>
      (R < 1 ∧ 1 ≤ length (soprano r ++ alto r))
      ∨ (R < 2 ∧ 2 ≤ length (soprano r ++ alto r))
      ∨ (R < 3 ∧ 1 ≤ length (tenor r ++ bass r))
  | condition2 =>
      (R < 1 ∧ 1 ≤ length (soprano r ++ alto r))
      ∨ (R < 2 ∧ 2 ≤ length (soprano r ++ alto r))
      ∨ (R < 3 ∧ 3 ≤ length (soprano r ++ alto r))
      ∨ (R < 4 ∧ 1 ≤ length (tenor r ++ bass r))
  end.
Proof.
  rewrite distribute_throws_iff.
  assert (Hpick : ∀ (src : list Member) p, p < length src → ∃ m, src !! p = Some m).
  { intros src p Hp. by apply lookup_lt_is_Some_2. }
  destruct mode; simpl; split.
  - intros (src & tg & p & m & [= -> ->]%list_elem_of_singleton & Hp & Hmiss).
    apply lookup_lt_Some in Hp. rewrite !length_app in *.
    rewrite length_seq in Hmiss.
    destruct (decide (R = 0)) as [HR|HR]; [lia|].
    assert (Hlt : p mod R < R) by (apply Nat.mod_upper_bound; lia).
    specialize (Hmiss (p mod R)). rewrite lookup_seq_lt in Hmiss by done.
    specialize (Hmiss eq_refl). lia.
  - intros [HR Hxy].
    destruct (Hpick (soprano r ++ alto r ++ tenor r ++ bass r) 0) as [m Hm].
    { rewrite !length_app in *. lia. }
    eexists _, _, 0, m. split; [apply list_elem_of_here|]. split; [done|].
    intros t Ht. lia.
  - intros (src & tg & p & m & Hg & Hp & Hmiss).
    apply lookup_lt_Some in Hp.
    apply elem_of_cons in Hg as [[= -> ->] | [= -> ->]%list_elem_of_singleton];
      cbn [length] in Hmiss.
    + assert (Hlt : p mod 2 < 2) by (apply Nat.mod_upper_bound; lia).
      pose proof (Nat.Div0.mod_le p 2) as Hle.
      revert Hmiss. destruct (p mod 2) as [|[|?]] eqn:Hmod; [| |lia];
        intros Hmiss; specialize (Hmiss _ eq_refl); lia.
    + specialize (Hmiss 2). rewrite Nat.mod_1_r in Hmiss.
      specialize (Hmiss eq_refl). lia.
  - intros [[HR Hx]|[[HR Hx]|[HR Hy]]].
    + destruct (Hpick (soprano r ++ alto r) 0) as [m Hm]; [lia|].
      eexists _, _, 0, m. split; [apply list_elem_of_here|]. split; [done|].
      intros t [= <-]. lia.
    + destruct (Hpick (soprano r ++ alto r) 1) as [m Hm]; [lia|].
      eexists _, _, 1, m. split; [apply list_elem_of_here|]. split; [done|].
      intros t [= <-]. lia.
    + destruct (Hpick (tenor r ++ bass r) 0) as [m Hm]; [lia|].
      eexists _, _, 0, m.
      split; [apply list_elem_of_further, list_elem_of_here|]. split; [done|].
      intros t [= <-]. lia.
  - intros (src & tg & p & m & Hg & Hp & Hmiss).
    apply lookup_lt_Some in Hp.
    apply elem_of_cons in Hg as [[= -> ->] | [= -> ->]%list_elem_of_singleton];
      cbn [length] in Hmiss.
    + assert (Hlt : p mod 3 < 3) by (apply Nat.mod_upper_bound; lia).
      pose proof (Nat.Div0.mod_le p 3) as Hle.
      revert Hmiss. destruct (p mod 3) as [|[|[|?]]] eqn:Hmod; [| | |lia];
        intros Hmiss; specialize (Hmiss _ eq_refl); lia.
    + specialize (Hmiss 3). rewrite Nat.mod_1_r in Hmiss.
      specialize (Hmiss eq_refl). lia.
  - intros [[HR Hx]|[[HR Hx]|[[HR Hx]|[HR Hy]]]].
    + destruct (Hpick (soprano r ++ alto r) 0) as [m Hm]; [lia|].
      eexists _, _, 0, m. split; [apply list_elem_of_here|]. split; [done|].
      intros t [= <-]. lia.
    + destruct (Hpick (soprano r ++ alto r) 1) as [m Hm]; [lia|].
      eexists _, _, 1, m. split; [apply list_elem_of_here|]. split; [done|].
      intros t [= <-]. lia.
    + destruct (Hpick (soprano r ++ alto r) 2) as [m Hm]; [lia|].
      eexists _, _, 2, m. split; [apply list_elem_of_here|]. split; [done|].
      intros t [= <-]. lia.
    + destruct (Hpick (tenor r ++ bass r) 0) as [m Hm]; [lia|].
      eexists _, _, 0, m.
      split; [apply list_elem_of_further, list_elem_of_here|]. split; [done|].
      intros t [= <-]. lia.
Qed.

(** X12. In numbers: with [x] sopranos and altos together and [y] tenors
    and basses together, regeneration ends in a [TypeError] under the
    automatic policy exactly when there is no row and at least one member;
    under condition1 exactly when a row it fills is missing ([x] at least
    1 and no row, [x] at least 2 and fewer than 2 rows, [y] at least 1 and
    fewer than 3 rows); under condition2 likewise with three rows for
    sopranos and altos and the fourth for tenors and basses. *)
Theorem regenerate_fails_iff_too_few_rows (uuidv4 : nat → string)
    (st : AppState) :
  let r := roster uuidv4 (counts st) in
  let x := length (soprano r ++ alto r) in
  let y := length (tenor r ++ bass r) in
  let R := rowCount st in
  generateMembers uuidv4 st = Throw TypeError ↔
  match layoutMode st with
  | auto => R = 0 ∧ 1 ≤ x + y
  | condition1 => (R < 1 ∧ 1 ≤ x) ∨ (R < 2 ∧ 2 ≤ x) ∨ (R < 3 ∧ 1 ≤ y)
  | condition2 =>
      (R < 1 ∧ 1 ≤ x) ∨ (R < 2 ∧ 2 ≤ x) ∨ (R < 3 ∧ 3 ≤ x) ∨ (R < 4 ∧ 1 ≤ y)
  end.
Proof.
  intros r x y R. rewrite generateMembers_throws.
  apply distribute_throws_too_few_rows.
Qed.

Lemma regenerate_fails_iff_too_few_rows_witness :
  generateMembers sample_uuid condition1_two_rows = Throw TypeError.
Proof.
  apply (regenerate_fails_iff_too_few_rows sample_uuid condition1_two_rows).
  right. right. vm_compute. split; lia.
Defined.

(** ** The shape of the rows *)

Section shape_facts.
Context {A : Type}.
Implicit Types (src : list A) (k j n : nat).

Lemma round_robin_row_length_lt k j n src :
  j < k → n < length (round_robin_row k j src) ↔ j + n * k < length src.
Proof.
  intros Hj.
  rewrite <- !lookup_lt_is_Some. by rewrite round_robin_row_lookup.
Qed.

(** Of the rows of a round-robin the first is a longest one, and none is
    shorter than it by more than one. *)
Lemma round_robin_row_length_first k j src :
  j < k →
  length (round_robin_row k j src) ≤ length (round_robin_row k 0 src)
  ∧ length (round_robin_row k 0 src) ≤ length (round_robin_row k j src) + 1.
Proof.
  intros Hj. split.
  - destruct (decide (length (round_robin_row k j src)
                      ≤ length (round_robin_row k 0 src))) as [|Hgt]; [done|].
    assert (Hlt : length (round_robin_row k 0 src)
                  < length (round_robin_row k j src)) by lia.
    apply round_robin_row_length_lt in Hlt; [|done].
    assert (H0 : length (round_robin_row k 0 src)
                 < length (round_robin_row k 0 src)).
    { apply round_robin_row_length_lt; lia. }
    lia.
  - destruct (decide (length (round_robin_row k 0 src)
                      ≤ length (round_robin_row k j src) + 1)) as [|Hgt]; [done|].
    assert (Hlt : length (round_robin_row k j src) + 1
                  < length (round_robin_row k 0 src)) by lia.
    apply round_robin_row_length_lt in Hlt; [|lia].
    assert (Hj' : length (round_robin_row k j src)
                  < length (round_robin_row k j src)).
    { apply round_robin_row_length_lt; [done|]. nia. }
    lia.
Qed.

(** The first row has the number of members divided by the number of rows,
    rounded up. *)
Lemma round_robin_row_length_0 k src :
  0 < k → length (round_robin_row k 0 src) = (length src + k - 1) / k.
Proof.
  intros Hk.
  set (b := length (round_robin_row k 0 src)).
  assert (Hb : ∀ n, n < b ↔ n * k < length src).
  { intros n. unfold b. rewrite round_robin_row_length_lt by done. done. }
  apply Nat.le_antisymm.
  - apply Nat.div_le_lower_bound; [lia|].
    destruct b as [|b']; [lia|].
    assert (Hlast : b' * k < length src) by (apply Hb; lia). nia.
  - destruct (decide ((length src + k - 1) / k ≤ b)) as [|Hgt]; [done|].
    assert (Hnot : ¬ b * k < length src) by (rewrite <- Hb; lia).
    pose proof (Nat.Div0.mul_div_le (length src + k - 1) k) as Hmul.
    assert (Hc : k * (b + 1) ≤ k * ((length src + k - 1) / k))
      by (apply Nat.mul_le_mono_l; lia).
    nia.
Qed.
End shape_facts.

Section generated_facts.
Implicit Types (raw g : Grid) (row : list Slot) (M : nat).

Lemma elem_of_select_from {A} (P : nat → Prop) `{!∀ p, Decision (P p)} i
    (l : list A) x :
  x ∈ select_from P i l → x ∈ l ∧ ∃ p, P p.
Proof.
  revert i. induction l as [|y l IH]; intros i; simpl.
  { by intros ?%elem_of_nil. }
  rewrite elem_of_app. intros [Hin|Hin].
  - destruct (decide (P i)) as [HP|HP]; [|by apply elem_of_nil in Hin].
    apply list_elem_of_singleton in Hin as ->.
    split; [apply list_elem_of_here | eauto].
  - apply IH in Hin as [Hin HP]. split; [by apply list_elem_of_further | done].
Qed.

Lemma elem_of_picks i members targetRows r s :
  s ∈ picks i members targetRows r →
  r ∈ targetRows ∧ ∃ m, s = Occupied m ∧ m ∈ members.
Proof.
  unfold picks. intros (m & -> & Hin)%list_elem_of_fmap.
  apply (elem_of_select_from _) in Hin as [Hin [p Hp]].
  split; [by eapply list_elem_of_lookup_2 | eauto].
Qed.

Lemma balancedRows_rectangular raw : rectangular raw → balancedRows raw = raw.
Proof.
  intros Hrect. unfold balancedRows. apply list_eq; intros i.
  rewrite list_lookup_fmap.
  destruct (raw !! i) as [row|] eqn:Hrow; simpl; [|done]. f_equal.
  assert (Hin : row ∈ raw) by (by eapply list_elem_of_lookup_2).
  assert (Hlen : length row = maxLength raw).
  { destruct (maxLength_attained raw) as (row' & Hrow' & <-).
    - by intros ->.
    - by apply Hrect. }
  rewrite balance_row_fits by lia.
  rewrite Hlen, Nat.sub_diag. simpl. by rewrite app_nil_r.
Qed.

Lemma balancedRows_is_rectangular raw : rectangular (balancedRows raw).
Proof.
  intros row1 row2 H1 H2.
  by rewrite (balancedRows_row_length _ _ H1), (balancedRows_row_length _ _ H2).
Qed.
End generated_facts.

(** X13. Under the automatic policy with at least one row, regeneration
    succeeds and the grid has as many columns as the number of members
    divided by the number of rows, rounded up; every row is left-aligned:
    it is its round-robin share of the members followed by at most one
    empty slot, and never starts with an empty slot. *)
Theorem auto_rows_are_left_aligned (uuidv4 : nat → string) (st : AppState) :
  layoutMode st = auto → 1 ≤ rowCount st →
  let members := all_members (roster uuidv4 (counts st)) in
  let R := rowCount st in
  ∃ st', generateMembers uuidv4 st = Ok st'
    ∧ length (rows st') = R
    ∧ ∀ i, i < R →
        ∃ d, d ≤ 1
          ∧ rows st' !! i
            = Some ((Occupied <$> round_robin_row R i members) ++ replicate d Null)
          ∧ length (round_robin_row R i members) + d
            = (length members + R - 1) / R.
Proof.
  intros Hauto HR members R.
  destruct (distribute_succeeds auto R (roster uuidv4 (counts st)))
    as [raw Hraw]; [simpl; lia|].
  assert (Hlen : length raw = R) by (by apply distribute_picks in Hraw as [? _]).
  assert (Hrow : ∀ i, i < R →
            raw !! i = Some (Occupied <$> round_robin_row R i members)).
  { intros i Hi.
    rewrite (distribute_groups _ _ _ _ members (seq 0 R) i i Hraw);
      [by rewrite length_seq | apply list_elem_of_here
       | by apply lookup_seq_lt | done]. }
  assert (Hmax : maxLength raw = length (round_robin_row R 0 members)).
  { apply Nat.le_antisymm.
    - destruct (maxLength_attained raw) as (row & Hin & <-).
      { intros ->. simpl in Hlen. lia. }
      apply list_elem_of_lookup_1 in Hin as [j Hj].
      assert (Hjlt : j < R) by (rewrite <- Hlen; by eapply lookup_lt_Some).
      rewrite Hrow in Hj by done. injection Hj as <-.
      rewrite length_fmap. by apply round_robin_row_length_first.
    - rewrite <- (length_fmap Occupied). apply maxLength_ge.
      eapply list_elem_of_lookup_2. apply Hrow. lia. }
  exists (setRows (balancedRows raw) st).
  split; [apply generateMembers_Ok; exists raw; by rewrite Hauto|].
  split; [simpl; unfold balancedRows; by rewrite length_fmap|].
  intros i Hi.
  destruct (round_robin_row_length_first R i members Hi) as [Hle Hge].
  exists (maxLength raw - length (round_robin_row R i members)).
  split; [lia|]. split.
  - simpl. rewrite (balancedRows_lookup _ _ _ (Hrow i Hi)), length_fmap.
    rewrite Nat.div_small by lia. simpl. by rewrite Nat.sub_0_r.
  - pose proof (round_robin_row_length_0 R members) as H0. rewrite Hmax. lia.
Qed.

Lemma auto_rows_are_left_aligned_witness :
  ∃ st', generateMembers sample_uuid initial_state = Ok st'
         ∧ Forall (λ row, length row = 10) (rows st').
Proof.
  destruct (auto_rows_are_left_aligned sample_uuid initial_state)
    as (st' & Hgen & Hlen & Hrows).
  - reflexivity.
  - simpl. lia.
  - exists st'. split; [exact Hgen|].
    apply generateMembers_Ok in Hgen as (raw & [= <-] & ->).
    vm_compute. repeat constructor.
Defined.

(** X14. Under condition1 and condition2 the parts are kept apart: in the
    grid of any build that goes through, a soprano or an alto sits in one
    of the first rows (two under condition1, three under condition2), a
    tenor or a bass sits in the row after them, and the rows further down
    hold no member. *)
Theorem conditions_keep_parts_apart (uuidv4 : nat → string)
    (st st' : AppState) (row index : nat) (m : Member) :
  layoutMode st ≠ auto →
  generateMembers uuidv4 st = Ok st' →
  slot_at (rows st') row index = Some (Occupied m) →
  let k := rows_required (layoutMode st) - 1 in
  (row < k ∧ (part m = Soprano ∨ part m = Alto))
  ∨ (row = k ∧ (part m = Tenor ∨ part m = Bass)).
Proof.
  intros Hmode (raw & Hraw & ->)%generateMembers_Ok Hslot k.
  simpl in Hslot. apply slot_at_Some in Hslot as (brow & Hbrow & Hm).
  unfold balancedRows in Hbrow. rewrite list_lookup_fmap in Hbrow.
  destruct (raw !! row) as [rawRow|] eqn:HrawRow; [|done].
  injection Hbrow as <-.
  apply list_elem_of_lookup_2, elem_of_balance_row in Hm as [?|Hm]; [done|].
  destruct (distribute_picks _ _ _ _ Hraw) as [Hlen Hpicks].
  assert (Hrow : row < rowCount st) by (rewrite <- Hlen; by eapply lookup_lt_Some).
  rewrite (Hpicks row Hrow) in HrawRow. injection HrawRow as <-.
  assert (HSA : ∀ m', m' ∈ soprano (roster uuidv4 (counts st))
                           ++ alto (roster uuidv4 (counts st)) →
                      part m' = Soprano ∨ part m' = Alto).
  { intros m' [Hin|Hin]%elem_of_app; apply category_part in Hin; auto. }
  assert (HTB : ∀ m', m' ∈ tenor (roster uuidv4 (counts st))
                           ++ bass (roster uuidv4 (counts st)) →
                      part m' = Tenor ∨ part m' = Bass).
  { intros m' [Hin|Hin]%elem_of_app; apply category_part in Hin; auto. }
  subst k. destruct (layoutMode st); [done| |]; simpl.
  - apply elem_of_app in Hm as [Hm|Hm];
      apply elem_of_picks in Hm as (Ht & m' & [= <-] & Hin).
    + left. split; [set_unfold; lia | by apply HSA].
    + right. split; [set_unfold; lia | by apply HTB].
  - apply elem_of_app in Hm as [Hm|Hm];
      apply elem_of_picks in Hm as (Ht & m' & [= <-] & Hin).
    + left. split; [set_unfold; lia | by apply HSA].
    + right. split; [set_unfold; lia | by apply HTB].
Qed.

Lemma conditions_keep_parts_apart_witness :
  ∃ st' m, generateMembers sample_uuid
             (setLayoutMode condition1 initial_state) = Ok st'
           ∧ slot_at (rows st') 2 0 = Some (Occupied m)
           ∧ (part m = Tenor ∨ part m = Bass).
Proof.
  assert (Hgen : ∃ st', generateMembers sample_uuid
                          (setLayoutMode condition1 initial_state) = Ok st')
    by (eexists; by vm_compute).
  destruct Hgen as [st' Hgen].
  assert (Hslot : ∃ m, slot_at (rows st') 2 0 = Some (Occupied m)).
  { pose proof Hgen as Hst. vm_compute in Hst. injection Hst as <-.
    eexists. by vm_compute. }
  destruct Hslot as [m Hslot].
  exists st', m. split; [exact Hgen|]. split; [exact Hslot|].
  destruct (conditions_keep_parts_apart sample_uuid
              (setLayoutMode condition1 initial_state) st' 2 0 m)
    as [[Hlt _]|[_ Hpart]].
  - discriminate.
  - exact Hgen.
  - exact Hslot.
  - simpl in Hlt. lia.
  - exact Hpart.
Defined.

(** X15. Balancing changes nothing on a grid whose rows already have the
    same length; in particular balancing twice is the same as balancing
    once. *)
Theorem balancing_is_idempotent (raw : Grid) :
  (rectangular raw → balancedRows raw = raw)
  ∧ balancedRows (balancedRows raw) = balancedRows raw.
Proof.
  split; [apply balancedRows_rectangular|].
  apply balancedRows_rectangular, balancedRows_is_rectangular.
Qed.

Lemma balancing_is_idempotent_witness : balancedRows sample_grid = sample_grid.
Proof.
  destruct (balancing_is_idempotent sample_grid) as [Hrect _].
  apply Hrect. intros row1 row2 H1 H2.
  repeat (apply elem_of_cons in H1 as [->|H1]);
    repeat (apply elem_of_cons in H2 as [->|H2]);
    try reflexivity; by apply elem_of_nil in H1 || by apply elem_of_nil in H2.
Defined.

(** X16. A row no longer than the target length is padded with empty
    slots split as evenly as possible, the odd one going to the right; a
    longer row is cut to its first slots and gets no padding. *)
Theorem padding_is_centred (M : nat) (row : list Slot) :
  (length row ≤ M →
   ∃ padLeft padRight,
     balance_row M row = replicate padLeft Null ++ row ++ replicate padRight Null
     ∧ padLeft + padRight = M - length row
     ∧ padLeft ≤ padRight ≤ padLeft + 1)
  ∧ (M ≤ length row → balance_row M row = take M row).
Proof.
  split.
  - intros Hlen. eexists _, _. split; [by apply balance_row_fits|].
    pose proof (Nat.div_mod_eq (M - length row) 2) as Hdiv.
    pose proof (Nat.mod_upper_bound (M - length row) 2) as Hmod.
    lia.
  - intros Hlen. unfold balance_row.
    rewrite length_take_le, Nat.sub_diag by done. simpl. by rewrite app_nil_r.
Qed.

Lemma padding_is_centred_witness :
  balance_row 4 [Occupied S0] = [Null; Occupied S0; Null; Null].
Proof.
  destruct (padding_is_centred 4 [Occupied S0]) as [Hshort _].
  destruct Hshort as (padLeft & padRight & Heq & Hsum & Hbias).
  - simpl. lia.
  - simpl in Hsum. rewrite Heq.
    assert (padLeft = 1) as -> by lia. assert (padRight = 2) as -> by lia.
    reflexivity.
Defined.

(** X18. Whatever the policy and the row count, a build that goes through
    places every member: its grid has [rowCount] rows of one length and
    holds exactly the members of the roster, each once. *)
Theorem successful_build_places_everyone (uuidv4 : nat → string)
    (st st' : AppState) :
  generateMembers uuidv4 st = Ok st' →
  length (rows st') = rowCount st
  ∧ rectangular (rows st')
  ∧ members_of_grid (rows st') ≡ₚ all_members (roster uuidv4 (counts st))
  ∧ layoutMode st' = layoutMode st ∧ counts st' = counts st
  ∧ rowCount st' = rowCount st.
Proof.
  intros (raw & Hraw & ->)%generateMembers_Ok. simpl.
  split; [|split; [|split]].
  - unfold balancedRows. rewrite length_fmap.
    by apply distribute_picks in Hraw as [? _].
  - apply balancedRows_is_rectangular.
  - rewrite members_of_balancedRows. unfold members_of_grid.
    by rewrite (distribute_concat _ _ _ _ Hraw), members_of_occupied.
  - done.
Qed.

Lemma successful_build_places_everyone_witness :
  ∃ st', generateMembers sample_uuid
           (setCounts Bass "0" (setCounts Tenor "0" condition1_two_rows)) = Ok st'
         ∧ length (rows st') = 2.
Proof.
  assert (Hgen : ∃ st', generateMembers sample_uuid
                          (setCounts Bass "0" (setCounts Tenor "0"
                             condition1_two_rows)) = Ok st')
    by (eexists; by vm_compute).
  destruct Hgen as [st' Hgen]. exists st'. split; [exact Hgen|].
  destruct (successful_build_places_everyone sample_uuid
              (setCounts Bass "0" (setCounts Tenor "0" condition1_two_rows)) st')
    as [Hlen _].
  - exact Hgen.
  - exact Hlen.
Defined.
